(** * c-playground: the dynamic array and the linked list of [src/ds]

    A shallow embedding of [src/ds/dyn_array.c] and [src/ds/linked_list.c]
    (the unnamed part is an earlier copy of the linked list with the same
    [push_node] and [walk_and_print_list]).

    Both programs work on the C heap.  The heap is an explicit finite map
    from block addresses to block contents, threaded through every
    operation; [malloc] picks an address that is not allocated, [free]
    removes a block, and any access outside a live block is the outcome
    [Fault] (undefined behaviour in C).  [size_t] arithmetic is 64-bit and
    wraps.  The sources never test the result of [malloc]; [malloc] is the
    call that succeeds, and where a failed call matters the functions
    take the behaviour of their call as a parameter. *)

From Stdlib Require Import ZArith Lia.
From Stdlib.Strings Require Import Byte.
From stdpp Require Import base option list gmap.

Local Open Scope Z_scope.

(** ** Outcomes *)

(** The result of running a piece of C: a value, or undefined behaviour
    (a read or write outside a live object, a [NULL] dereference). *)
Inductive outcome (A : Type) : Type :=
  | Done (a : A)
  | Fault.
Arguments Done {A} a.
Arguments Fault {A}.

#[global] Instance outcome_ret : MRet outcome := fun A a => Done a.
#[global] Instance outcome_bind : MBind outcome := fun A B f c =>
  match c with
  | Done a => f a
  | Fault => Fault
  end.

(** ** Machine integers *)

Definition SIZE_MAX : Z := 2 ^ 64 - 1.

(** Reduction of an arithmetic result to [size_t]. *)
Definition size_t (z : Z) : Z := z mod 2 ^ 64.

(** ** Bytes and buffers *)

(** A byte of memory: [None] is the indeterminate content of storage that
    [malloc] returned and nobody wrote yet. *)
Abbreviation cell := (option byte).

Abbreviation buffer := (list cell).

(** [n] bytes of [b] from offset [off]; a fault if they are not all inside
    [b]. *)
Definition read_buf (b : buffer) (off n : Z) : outcome buffer :=
  if bool_decide (0 ≤ off ∧ 0 ≤ n ∧ off + n ≤ Z.of_nat (length b))
  then Done (take (Z.to_nat n) (drop (Z.to_nat off) b))
  else Fault.

(** [b] with [data] written from offset [off]; a fault if [data] does not
    fit inside [b]. *)
Definition write_buf (b : buffer) (off : Z) (data : buffer) : outcome buffer :=
  if bool_decide (0 ≤ off ∧ off + Z.of_nat (length data) ≤ Z.of_nat (length b))
  then Done (take (Z.to_nat off) b ++ data
               ++ drop (Z.to_nat off + length data)%nat b)
  else Fault.

(** ** The heap of byte blocks *)

Abbreviation loc := positive.

(** A pointer to the start of a block, or [NULL]. *)
Abbreviation ptr := (option loc).

Abbreviation mem := (gmap loc buffer).

(** [malloc(n)]: a block of [n] indeterminate bytes at an address that is
    not allocated (for [n = 0] a block of no bytes; C leaves it to the
    implementation whether that is [NULL]).  A freed address can be
    handed out again. *)
Definition malloc (m : mem) (n : Z) : mem * ptr :=
  let l := fresh (dom m) in
  (<[l := replicate (Z.to_nat n) None]> m, Some l).

(** [free(p)]: [free(NULL)] does nothing, freeing what is not allocated is
    a fault. *)
Definition free (m : mem) (p : ptr) : outcome mem :=
  match p with
  | None => Done m
  | Some l =>
      match m !! l with
      | Some _ => Done (delete l m)
      | None => Fault
      end
  end.

(** Reading [n] bytes at [p + off]. *)
Definition load (m : mem) (p : ptr) (off n : Z) : outcome buffer :=
  match p with
  | None => Fault
  | Some l =>
      match m !! l with
      | Some b => read_buf b off n
      | None => Fault
      end
  end.

(** Writing [data] at [p + off]. *)
Definition store (m : mem) (p : ptr) (off : Z) (data : buffer) : outcome mem :=
  match p with
  | None => Fault
  | Some l =>
      match m !! l with
      | Some b => b' ← write_buf b off data; Done (<[l := b']> m)
      | None => Fault
      end
  end.

(** [memcpy(dst + doff, src + soff, n)] between heap blocks; overlapping
    ranges are a fault. *)
Definition memcpy (m : mem) (dst : ptr) (doff : Z) (src : ptr) (soff n : Z)
  : outcome mem :=
  if bool_decide (dst = src ∧ doff < soff + n ∧ soff < doff + n)
  then Fault
  else data ← load m src soff n; store m dst doff data.

Arguments read_buf : simpl never.
Arguments write_buf : simpl never.
Arguments malloc : simpl never.
Arguments free : simpl never.
Arguments load : simpl never.
Arguments store : simpl never.
Arguments memcpy : simpl never.

(** ** [src/ds/dyn_array.c] *)

Module DynArr.

(** [struct DynArray].  The control structure is held by value; its
    [items] buffer lives in the heap. *)
Record DynArray : Type := mkDynArray {
  items : ptr;
  count : Z;
  cap : Z;
  size : Z
}.

Definition set_count (array : DynArray) (c : Z) : DynArray :=
  {| items := items array; count := c; cap := cap array; size := size array |}.

Definition new_dyn_array (m : mem) (sz : Z) : mem * DynArray :=
  let count0 := 0 in
  let cap0 := 2 in
  let '(m1, p) := malloc m (size_t (sz * cap0)) in
  (m1, {| items := p; count := count0; cap := cap0; size := sz |}).

(** The resizing branch of [push_dyn_array]. *)
Definition grow (m : mem) (array : DynArray) : outcome (mem * DynArray) :=
  let cap' := size_t (cap array * 2) in
  let new_size := size_t (cap' * size array) in
  let '(m1, new_items) := malloc m new_size in
  m2 ← memcpy m1 new_items 0 (items array) 0 (size_t (size array * count array));
  m3 ← free m2 (items array);
  Done (m3, {| items := new_items; count := count array;
               cap := cap'; size := size array |}).

(** [val] is the object the caller's pointer designates. *)
Definition push_dyn_array (m : mem) (array : DynArray) (val : buffer)
  : outcome (mem * DynArray) :=
  '(m, array) ← (if bool_decide (cap array ≤ count array)
                 then grow m array
                 else Done (m, array));
  let dest := size_t (size array * count array) in
  data ← read_buf val 0 (size array);
  m' ← store m (items array) dest data;
  Done (m', set_count array (size_t (count array + 1))).

(** [popped] is the caller's output object; the result carries the
    returned [int], the array and the output object afterwards.  The heap
    is only read. *)
Definition pop_dyn_array (m : mem) (array : DynArray) (popped : buffer)
  : outcome (Z * DynArray * buffer) :=
  if bool_decide (count array = 0) then Done (0, array, popped)
  else
    let src := size_t (size_t (count array - 1) * size array) in
    data ← load m (items array) src (size array);
    popped' ← write_buf popped 0 data;
    Done (1, set_count array (size_t (count array - 1)), popped').

(** The address computation [(char* )array->items + array->size * i] of
    the source, read as one element of [size] bytes. *)
Definition element_at (m : mem) (array : DynArray) (i : Z) : outcome buffer :=
  load m (items array) (size_t (size array * i)) (size array).

(** [struct User]: [char name[50]] at offset 0 and [short id] at offset
    50, 52 bytes in all. *)
Definition NAME_LEN : Z := 50.
Definition ID_LEN : Z := 2.
Definition SIZEOF_USER : Z := 52.

(** What [printf("%s")] reads of [name]: the characters before the first
    NUL.  A [name] with no NUL in it, or with an indeterminate byte
    before the NUL, is a fault. *)
Fixpoint c_string (cells : buffer) : outcome (list byte) :=
  match cells with
  | [] => Fault
  | None :: _ => Fault
  | Some c :: rest =>
      if Byte.eqb c "000"%byte then Done []
      else s ← c_string rest; Done (c :: s)
  end.

(** The two fields [printf] is given of a [User] object: the name as a
    string and the bytes of the id (their conversion to a number is left
    to the platform). *)
Definition user_fields (user : buffer) : outcome (list byte * buffer) :=
  name ← read_buf user 0 NAME_LEN;
  s ← c_string name;
  id ← read_buf user NAME_LEN ID_LEN;
  Done (s, id).

(** The loop of [print_user_array], [i] from 0 while [i < count]: the slot
    at [items + size * i] is read as a [User], whatever [size] is; each
    printed line is abstracted to the index, the name and the id bytes. *)
Fixpoint print_loop (m : mem) (array : DynArray) (n : nat) (i : Z)
  : outcome (list (Z * list byte * buffer)) :=
  match n with
  | O => Done []
  | S n' =>
      user ← load m (items array) (size_t (size array * i)) SIZEOF_USER;
      '(name, id) ← user_fields user;
      rest ← print_loop m array n' (size_t (i + 1));
      Done ((i, name, id) :: rest)
  end.

Definition print_user_array (m : mem) (array : DynArray)
  : outcome (list (Z * list byte * buffer)) :=
  print_loop m array (Z.to_nat (count array)) 0.

(** [malloc] when the system cannot provide the memory: the heap is as
    it was and the result is [NULL]. *)
Definition malloc_null (m : mem) (n : Z) : mem * ptr := (m, None).

(** The two behaviours of a call of [malloc]. *)
Definition alloc (ok : bool) : mem → Z → mem * ptr :=
  if ok then malloc else malloc_null.

(** [new_dyn_array], [push_dyn_array] and its resizing branch with the
    behaviour of their call of [malloc] as a parameter; the result of
    [malloc] is used unchecked.  With [ok = true] they are the functions
    above. *)
Definition new_dyn_array_alloc (ok : bool) (m : mem) (sz : Z) : mem * DynArray :=
  let count0 := 0 in
  let cap0 := 2 in
  let '(m1, p) := alloc ok m (size_t (sz * cap0)) in
  (m1, {| items := p; count := count0; cap := cap0; size := sz |}).

Definition grow_alloc (ok : bool) (m : mem) (array : DynArray)
  : outcome (mem * DynArray) :=
  let cap' := size_t (cap array * 2) in
  let new_size := size_t (cap' * size array) in
  let '(m1, new_items) := alloc ok m new_size in
  m2 ← memcpy m1 new_items 0 (items array) 0 (size_t (size array * count array));
  m3 ← free m2 (items array);
  Done (m3, {| items := new_items; count := count array;
               cap := cap'; size := size array |}).

Definition push_dyn_array_alloc (ok : bool) (m : mem) (array : DynArray)
    (val : buffer) : outcome (mem * DynArray) :=
  '(m, array) ← (if bool_decide (cap array ≤ count array)
                 then grow_alloc ok m array
                 else Done (m, array));
  let dest := size_t (size array * count array) in
  data ← read_buf val 0 (size array);
  m' ← store m (items array) dest data;
  Done (m', set_count array (size_t (count array + 1))).

(** A run of pushes, left to right. *)
Fixpoint push_all (m : mem) (array : DynArray) (vals : list buffer)
  : outcome (mem * DynArray) :=
  match vals with
  | [] => Done (m, array)
  | v :: vals' =>
      '(m', array') ← push_dyn_array m array v;
      push_all m' array' vals'
  end.

(** A run of [k] pops into one output object, as repeated calls with the
    same pointer; each result is the returned [int] with the output
    object after the call. *)
Fixpoint pop_all (m : mem) (array : DynArray) (k : nat) (popped : buffer)
  : outcome (list (Z * buffer) * DynArray) :=
  match k with
  | O => Done ([], array)
  | S k' =>
      '(r, array', popped') ← pop_dyn_array m array popped;
      '(rs, array'') ← pop_all m array' k' popped';
      Done ((r, popped') :: rs, array'')
  end.

(** [main].  [user1], [user2], [user3] are the three [User] objects
    behind [&user1], [&user2], [&user3]; [popped_user] is an
    uninitialised [User].  The result is what is printed: the lines of
    the loop, then the fields of the popped user. *)
Definition main (m0 : mem) (user1 user2 user3 : buffer)
  : outcome (list (Z * list byte * buffer) * (list byte * buffer)) :=
  let '(m, array) := new_dyn_array m0 SIZEOF_USER in
  '(m, array) ← push_dyn_array m array user1;
  '(m, array) ← push_dyn_array m array user2;
  '(m, array) ← push_dyn_array m array user3;
  printed ← print_user_array m array;
  let popped_user := replicate (Z.to_nat SIZEOF_USER) None in
  '(_, array, popped_user) ← pop_dyn_array m array popped_user;
  popped ← user_fields popped_user;
  Done (printed, popped).

(** The bytes of a [User] whose name is the string [name] (the rest of
    [name[50]] zero, as an initialiser leaves it) and whose id has the
    bytes [id]. *)
Definition user_bytes (name : list byte) (id : buffer) : buffer :=
  (Some <$> name)
    ++ replicate (Z.to_nat NAME_LEN - length name) (Some "000"%byte)
    ++ id.

(** A name that fits [name[50]] with its NUL, and an id of two bytes. *)
Definition user_ok (name : list byte) (id : buffer) : Prop :=
  Z.of_nat (length name) < NAME_LEN
  ∧ ("000"%byte ∉ name)
  ∧ Z.of_nat (length id) = ID_LEN.

(** [array] in heap [m] holds exactly the elements [elems], in order, at
    the front of a live block of [cap * size] bytes. *)
Record repr (m : mem) (array : DynArray) (elems : list buffer) : Prop := mkRepr {
  repr_count : count array = Z.of_nat (length elems);
  repr_cap_pos : 0 < cap array;
  repr_count_cap : count array ≤ cap array;
  repr_size : 0 ≤ size array;
  repr_cap_max : cap array ≤ SIZE_MAX;
  repr_bytes : cap array * size array ≤ SIZE_MAX;
  repr_elems : Forall (λ e, Z.of_nat (length e) = size array) elems;
  repr_items : ∃ l rest,
      items array = Some l ∧ m !! l = Some (concat elems ++ rest)
      ∧ Z.of_nat (length (concat elems ++ rest)) = cap array * size array
}.

(** The doubled capacity and its byte size are [size_t] values. *)
Definition fits (array : DynArray) : Prop :=
  cap array * 2 ≤ SIZE_MAX ∧ cap array * 2 * size array ≤ SIZE_MAX.

(** The invariant of the data model. *)
Definition dyn_inv (array : DynArray) : Prop :=
  count array ≤ cap array ∧ (0 < cap array → items array ≠ None).

(** Sample elements of two bytes. *)
Definition e1 : buffer := [Some "a"%byte; Some "1"%byte].
Definition e2 : buffer := [Some "b"%byte; Some "2"%byte].
Definition e3 : buffer := [Some "c"%byte; Some "3"%byte].

(** A full array of two two-byte elements, as two pushes leave it. *)
Definition full_mem : mem := {[ 1%positive := e1 ++ e2 ]}.
Definition full_array : DynArray :=
  {| items := Some 1%positive; count := 2; cap := 2; size := 2 |}.

(** The capacity is a power of two, and above 2 it is less than twice
    the length. *)
Definition cap_law (array : DynArray) : Prop :=
  (∃ j : nat, cap array = 2 ^ Z.of_nat (S j))
  ∧ (cap array = 2 ∨ cap array < 2 * count array).

(** An array with one element and one free slot, as one push leaves
    it. *)
Definition room_mem : mem := {[ 1%positive := e1 ++ [None; None] ]}.
Definition room_array : DynArray :=
  {| items := Some 1%positive; count := 1; cap := 2; size := 2 |}.

(** The three users of [main], with their ids as two bytes, low byte
    first. *)
Definition meg : list byte * buffer :=
  (["m"; "e"; "g"]%byte, [Some "001"%byte; Some "000"%byte]).
Definition bobo : list byte * buffer :=
  (["b"; "o"; "b"; "o"]%byte, [Some "002"%byte; Some "000"%byte]).
Definition rigby : list byte * buffer :=
  (["r"; "i"; "g"; "b"; "y"]%byte, [Some "003"%byte; Some "000"%byte]).

(** A full array of two users. *)
Definition user_mem : mem :=
  {[ 1%positive := user_bytes meg.1 meg.2 ++ user_bytes bobo.1 bobo.2 ]}.
Definition user_array : DynArray :=
  {| items := Some 1%positive; count := 2; cap := 2; size := SIZEOF_USER |}.

End DynArr.

(** ** [src/ds/linked_list.c] *)

Module LinkedList.

(** [struct IntNode]; [value] is a C [int], stored and read back as it
    is given. *)
Record IntNode : Type := mkIntNode {
  next : option loc;
  value : Z
}.

(** [struct IntList]. *)
Record IntList : Type := mkIntList {
  head : option loc;
  tail : option loc
}.

(** The heap of list nodes. *)
Abbreviation nodes := (gmap loc IntNode).

(** [IntList numbers = {NULL, NULL};] *)
Definition empty_list : IntList := {| head := None; tail := None |}.

(** The address [malloc(sizeof(IntNode))] returns in heap [h]. *)
Definition new_node (h : nodes) : loc := fresh (dom h).

Definition push_node (h : nodes) (list : IntList) (node_val : Z)
  : outcome (nodes * IntList) :=
  let node := new_node h in
  let h := <[node := {| next := None; value := node_val |}]> h in
  '(h, list) ← match head list with
               | None => Done (h, {| head := Some node; tail := tail list |})
               | Some _ =>
                   match tail list with
                   | None => Fault
                   | Some t =>
                       match h !! t with
                       | Some tn =>
                           Done (<[t := {| next := Some node;
                                           value := value tn |}]> h, list)
                       | None => Fault
                       end
                   end
               end;
  Done (h, {| head := head list; tail := Some node |}).

(** A visitor ([NodeFn]) reads the heap through the pointer it is given
    and produces one output. *)
Definition NodeFn (A : Type) : Type := nodes → option loc → outcome A.

(** [print_node]; the printed line is abstracted to the value printed. *)
Definition print_node : NodeFn Z := fun h node =>
  match node with
  | None => Fault
  | Some p =>
      match h !! p with
      | Some n => Done (value n)
      | None => Fault
      end
  end.

(** The recursion of [walk_and_print_list] follows [next] links of an
    arbitrary heap, so it is driven by [fuel]: [None] is "the recursion
    is deeper than [fuel]".  The result lists the visitor's outputs in
    call order. *)
Fixpoint walk_and_print_list {A : Type} (fuel : nat) (h : nodes)
    (node : option loc) (nfn : NodeFn A) : option (outcome (list A)) :=
  match fuel with
  | O => None
  | S fuel' =>
      match nfn h node with
      | Fault => Some Fault
      | Done out =>
          match node with
          | None => Some Fault
          | Some p =>
              match h !! p with
              | None => Some Fault
              | Some n =>
                  match next n with
                  | None => Some (Done [out])
                  | Some q =>
                      match walk_and_print_list fuel' h (Some q) nfn with
                      | Some (Done rest) => Some (Done (out :: rest))
                      | Some Fault => Some Fault
                      | None => None
                      end
                  end
              end
          end
      end
  end.

(** A run of appends, left to right. *)
Fixpoint append_all (h : nodes) (l : IntList) (vals : list Z)
  : outcome (nodes * IntList) :=
  match vals with
  | [] => Done (h, l)
  | v :: vals' =>
      '(h', l') ← push_node h l v;
      append_all h' l' vals'
  end.

Definition some_fn (h : nodes) (list : IntList) : outcome (nodes * IntList) :=
  let result := 50 in
  push_node h list result.

(** [main] of [linked_list.c], from the heap [h0] it starts in; the
    result is what the walk prints. *)
Definition main (fuel : nat) (h0 : nodes) : option (outcome (list Z)) :=
  let numbers := empty_list in
  match ('(h, numbers) ← push_node h0 numbers 5;
         '(h, numbers) ← push_node h numbers 10;
         '(h, numbers) ← push_node h numbers 20;
         '(h, numbers) ← push_node h numbers 40;
         some_fn h numbers) with
  | Done (h, numbers) => walk_and_print_list fuel h (head numbers) print_node
  | Fault => Some Fault
  end.

(** The nodes [ns] (address and value), linked in this order by their
    [next] fields, lead from pointer [p] to the end of the chain. *)
Fixpoint chain (h : nodes) (p : option loc) (ns : list (loc * Z)) : Prop :=
  match ns with
  | [] => p = None
  | (l, v) :: ns' =>
      p = Some l
      ∧ ∃ nx, h !! l = Some {| next := nx; value := v |} ∧ chain h nx ns'
  end.

(** The pointer reached from [p] by following [k] [next] links; [None]
    is the absent pointer, also past the end. *)
Fixpoint hop (h : nodes) (k : nat) (p : option loc) : option loc :=
  match k with
  | O => p
  | S k' =>
      match p with
      | None => None
      | Some l =>
          match h !! l with
          | Some n => hop h k' (next n)
          | None => None
          end
      end
  end.

(** The invariant of the data model: the list [l] in heap [h] is the
    chain of the nodes [ns] from [head], and [tail] is its last node. *)
Record list_inv (h : nodes) (l : IntList) (ns : list (loc * Z)) : Prop := mkListInv {
  inv_chain : chain h (head l) ns;
  inv_tail : tail l = last ns.*1
}.

(** The list after one append of 5 to the empty list in the empty
    heap. *)
Definition one_heap : nodes := {[ 1%positive := {| next := None; value := 5 |} ]}.
Definition one_list : IntList :=
  {| head := Some 1%positive; tail := Some 1%positive |}.

(** Two linked nodes, and a list record whose tail still points to the
    first of them. *)
Definition two_heap : nodes :=
  {[ 1%positive := {| next := Some 2%positive; value := 5 |};
     2%positive := {| next := None; value := 10 |} ]}.
Definition stale_list : IntList :=
  {| head := Some 1%positive; tail := Some 1%positive |}.

(** A node whose next link is the node itself. *)
Definition loop_heap : nodes :=
  {[ 1%positive := {| next := Some 1%positive; value := 5 |} ]}.

End LinkedList.

(** ** The earlier copy of the linked list *)

(** The unnamed part has the [push_node], [print_node] and
    [walk_and_print_list] of [linked_list.c], no [some_fn], and its own
    [main]. *)
Module Part000.
Import LinkedList.

Definition main (fuel : nat) (h0 : nodes) : option (outcome (list Z)) :=
  let linked_list := empty_list in
  match ('(h, linked_list) ← push_node h0 linked_list 5;
         '(h, linked_list) ← push_node h linked_list 10;
         '(h, linked_list) ← push_node h linked_list 20;
         push_node h linked_list 40) with
  | Done (h, linked_list) =>
      walk_and_print_list fuel h (head linked_list) print_node
  | Fault => Some Fault
  end.

End Part000.

(** * Properties *)

(** ** Machine integers and buffers *)

Lemma size_t_id (z : Z) : 0 ≤ z ≤ SIZE_MAX → size_t z = z.
Proof. unfold size_t, SIZE_MAX. intros H. apply Z.mod_small. lia. Qed.

Lemma size_t_range (z : Z) : 0 ≤ size_t z ≤ SIZE_MAX.
Proof.
  unfold size_t, SIZE_MAX.
  pose proof (Z.mod_pos_bound z (2 ^ 64) ltac:(lia)). lia.
Qed.

Lemma size_t_le (z : Z) : 0 ≤ z → size_t z ≤ z.
Proof. unfold size_t. intros H. apply Z.mod_le; lia. Qed.

(** A wrapped double is either the double or falls below the operand. *)
Lemma size_t_double (z : Z) :
  0 ≤ z ≤ SIZE_MAX → size_t (z * 2) = z * 2 ∨ size_t (z * 2) < z.
Proof.
  unfold size_t, SIZE_MAX. intros H.
  destruct (decide (z * 2 < 2 ^ 64)) as [Hlt|Hge].
  - left. apply Z.mod_small. lia.
  - right. replace (z * 2) with (z * 2 - 2 ^ 64 + 1 * 2 ^ 64) by lia.
    rewrite Z.mod_add by lia. rewrite Z.mod_small by lia. lia.
Qed.

Lemma read_buf_app (pre e post : buffer) :
  read_buf (pre ++ e ++ post) (Z.of_nat (length pre)) (Z.of_nat (length e))
  = Done e.
Proof.
  unfold read_buf. rewrite bool_decide_eq_true_2.
  - rewrite !Nat2Z.id. rewrite drop_app_length. by rewrite take_app_length.
  - rewrite !length_app. lia.
Qed.

Lemma write_buf_app (pre old post data : buffer) :
  length data = length old →
  write_buf (pre ++ old ++ post) (Z.of_nat (length pre)) data
  = Done (pre ++ data ++ post).
Proof.
  intros Hlen. unfold write_buf. rewrite bool_decide_eq_true_2.
  - rewrite Nat2Z.id, take_app_length. do 2 f_equal.
    rewrite drop_app_add'; [|done]. rewrite Hlen. by rewrite drop_app_length.
  - rewrite !length_app. lia.
Qed.

Lemma read_buf_all (b : buffer) :
  read_buf b 0 (Z.of_nat (length b)) = Done b.
Proof.
  pose proof (read_buf_app [] b []) as H. simpl in H.
  by rewrite app_nil_r in H.
Qed.

Lemma write_buf_front (old post data : buffer) :
  length data = length old →
  write_buf (old ++ post) 0 data = Done (data ++ post).
Proof. intros H. by apply (write_buf_app [] old post data). Qed.

Lemma read_buf_done (b : buffer) (off n : Z) (r : buffer) :
  read_buf b off n = Done r →
  0 ≤ off ∧ 0 ≤ n ∧ off + n ≤ Z.of_nat (length b) ∧ Z.of_nat (length r) = n.
Proof.
  unfold read_buf. case_bool_decide as Hb; [|done].
  intros [= <-]. rewrite length_take, length_drop. lia.
Qed.

Lemma write_buf_done (b : buffer) (off : Z) (data r : buffer) :
  write_buf b off data = Done r →
  0 ≤ off ∧ off + Z.of_nat (length data) ≤ Z.of_nat (length b)
  ∧ length r = length b.
Proof.
  unfold write_buf. case_bool_decide as Hb; [|done].
  intros [= <-]. rewrite !length_app, length_take, length_drop. lia.
Qed.

Lemma load_done (m : mem) (p : ptr) (off n : Z) (r : buffer) :
  load m p off n = Done r →
  ∃ l b, p = Some l ∧ m !! l = Some b ∧ read_buf b off n = Done r.
Proof.
  unfold load. destruct p as [l|]; [|done].
  destruct (m !! l) as [b|] eqn:Hb; [|done]. eauto.
Qed.

Lemma store_done (m : mem) (p : ptr) (off : Z) (data : buffer) (m' : mem) :
  store m p off data = Done m' →
  ∃ l b b', p = Some l ∧ m !! l = Some b ∧ write_buf b off data = Done b'
            ∧ m' = <[l := b']> m.
Proof.
  unfold store. destruct p as [l|]; [|done].
  destruct (m !! l) as [b|] eqn:Hb; [|done].
  destruct (write_buf b off data) as [b'|] eqn:Hw; [|done].
  intros [= <-]. by exists l, b, b'.
Qed.

Lemma free_done (m : mem) (p : ptr) (m' : mem) :
  free m p = Done m' → ∀ l, p = Some l → is_Some (m !! l) ∧ m' = delete l m.
Proof.
  unfold free. intros H l ->. destruct (m !! l) as [b|]; [|done].
  injection H as <-. eauto.
Qed.

(** A buffer splits at any offset inside it. *)
Lemma buffer_split (b : buffer) (n : nat) :
  (n ≤ length b)%nat →
  ∃ pre post, b = pre ++ post ∧ length pre = n.
Proof.
  intros H. exists (take n b), (drop n b). split.
  - by rewrite take_drop.
  - rewrite length_take. lia.
Qed.

(** Elements of one width laid out back to back. *)
Lemma length_concat_uniform (n : nat) (elems : list buffer) :
  Forall (λ e, length e = n) elems →
  length (concat elems) = (length elems * n)%nat.
Proof.
  induction 1 as [|e elems He _ IH]; simpl; [done|].
  rewrite length_app, IH, He. lia.
Qed.

Lemma concat_lookup_split (n : nat) (elems : list buffer) (i : nat) (e : buffer) :
  Forall (λ e, length e = n) elems →
  elems !! i = Some e →
  ∃ pre post, concat elems = pre ++ e ++ post ∧ length pre = (i * n)%nat.
Proof.
  intros Hall Hi.
  exists (concat (take i elems)), (concat (drop (S i) elems)). split.
  - rewrite <- (take_drop_middle elems i e Hi) at 1.
    by rewrite concat_app, concat_cons.
  - rewrite (length_concat_uniform n).
    + rewrite length_take. apply lookup_lt_Some in Hi. lia.
    + by apply Forall_take.
Qed.

(** ** Outcomes *)

Lemma bind_done {A B : Type} (c : outcome A) (f : A → outcome B) (b : B) :
  c ≫= f = Done b → ∃ a, c = Done a ∧ f a = Done b.
Proof. destruct c as [a|]; [|done]. intros H. by exists a. Qed.

(** ** The dynamic array *)

Module DynArrFacts.
Import DynArr.

Lemma read_buf_prefix (v : buffer) (n : Z) :
  0 ≤ n ≤ Z.of_nat (length v) → read_buf v 0 n = Done (take (Z.to_nat n) v).
Proof.
  intros H. unfold read_buf. rewrite bool_decide_eq_true_2 by lia. done.
Qed.

Lemma repr_elems_nat m array elems :
  repr m array elems →
  Forall (λ e, length e = Z.to_nat (size array)) elems.
Proof.
  intros R. eapply Forall_impl; [apply (repr_elems _ _ _ R)|].
  simpl. intros e He. lia.
Qed.

Lemma repr_length_concat m array elems :
  repr m array elems →
  Z.of_nat (length (concat elems)) = size array * count array.
Proof.
  intros R. rewrite (length_concat_uniform (Z.to_nat (size array)))
    by eauto using repr_elems_nat.
  pose proof (repr_size _ _ _ R). rewrite (repr_count _ _ _ R). lia.
Qed.

Lemma repr_dest m array elems :
  repr m array elems → size_t (size array * count array) = size array * count array.
Proof.
  intros R. apply size_t_id.
  pose proof (repr_size _ _ _ R). pose proof (repr_bytes _ _ _ R).
  pose proof (repr_count_cap _ _ _ R). pose proof (repr_count _ _ _ R). nia.
Qed.

(** [push_dyn_array] when a slot is free: the element lands in the slot
    behind the live ones and nothing else moves. *)
Lemma push_room m array elems v :
  repr m array elems →
  count array < cap array →
  size array ≤ Z.of_nat (length v) →
  ∃ m', store m (items array) (size array * count array)
              (take (Z.to_nat (size array)) v) = Done m'
        ∧ push_dyn_array m array v = Done (m', set_count array (count array + 1))
        ∧ repr m' (set_count array (count array + 1))
               (elems ++ [take (Z.to_nat (size array)) v])
        ∧ dom m' = dom m.
Proof.
  intros R Hroom Hv.
  pose proof (repr_size _ _ _ R) as Hsz.
  pose proof (repr_count _ _ _ R) as Hcnt.
  pose proof (repr_cap_max _ _ _ R) as Hmax.
  pose proof (repr_length_concat _ _ _ R) as Hcat.
  destruct (repr_items _ _ _ R) as (l & rest & Hit & Hl & Hlen).
  set (data := take (Z.to_nat (size array)) v).
  assert (length data = Z.to_nat (size array)) as Hdata.
  { unfold data. rewrite length_take. lia. }
  rewrite length_app in Hlen.
  destruct (buffer_split rest (Z.to_nat (size array))) as (old & post & -> & Hold).
  { nia. }
  assert (store m (items array) (size array * count array) data
          = Done (<[l := concat elems ++ data ++ post]> m)) as Hstore.
  { unfold store. rewrite Hit, Hl.
    by rewrite <- Hcat, (write_buf_app _ old) by lia. }
  eexists. split; [exact Hstore|]. split; [|split].
  - unfold push_dyn_array.
    rewrite bool_decide_eq_false_2 by lia. simpl.
    rewrite (repr_dest _ _ _ R), read_buf_prefix by lia. simpl.
    fold data. rewrite Hstore. simpl. by rewrite size_t_id by lia.
  - constructor; simpl; try lia.
    + rewrite length_app. simpl. lia.
    + apply (repr_bytes _ _ _ R).
    + apply Forall_app. split; [apply (repr_elems _ _ _ R)|].
      apply Forall_singleton. fold data. lia.
    + exists l, post. split; [done|]. split.
      * rewrite lookup_insert_eq. f_equal.
        rewrite concat_app. simpl. by rewrite app_nil_r, <- app_assoc.
      * rewrite concat_app. simpl. rewrite app_nil_r.
        rewrite !length_app in *. fold data. lia.
  - apply dom_insert_lookup_L. by rewrite Hl.
Qed.

(** The bytes at [size * i] are the [i]-th element. *)
Lemma load_elem m array elems (i : nat) e :
  repr m array elems →
  elems !! i = Some e →
  load m (items array) (size array * Z.of_nat i) (size array) = Done e.
Proof.
  intros R Hi.
  destruct (repr_items _ _ _ R) as (l & rest & Hit & Hl & Hlen).
  destruct (concat_lookup_split _ _ _ _ (repr_elems_nat _ _ _ R) Hi)
    as (pre & post & Hcat & Hpre).
  pose proof (repr_size _ _ _ R) as Hsz.
  assert (Z.of_nat (length e) = size array) as He.
  { apply (Forall_lookup_1 _ _ _ _ (repr_elems _ _ _ R) Hi). }
  unfold load. rewrite Hit, Hl, Hcat, <- !app_assoc.
  replace (size array * Z.of_nat i) with (Z.of_nat (length pre)) by lia.
  rewrite <- He. apply read_buf_app.
Qed.

Lemma element_at_spec m array elems (i : nat) e :
  repr m array elems →
  elems !! i = Some e →
  element_at m array (Z.of_nat i) = Done e.
Proof.
  intros R Hi. unfold element_at.
  rewrite size_t_id; [by eapply load_elem|].
  pose proof (repr_size _ _ _ R). pose proof (repr_bytes _ _ _ R).
  pose proof (repr_count_cap _ _ _ R). pose proof (repr_count _ _ _ R).
  apply lookup_lt_Some in Hi. nia.
Qed.

(** [pop_dyn_array] on an array that holds something. *)
Lemma pop_last m array elems e popped :
  repr m array (elems ++ [e]) →
  size array ≤ Z.of_nat (length popped) →
  pop_dyn_array m array popped
  = Done (1, set_count array (count array - 1),
          e ++ drop (Z.to_nat (size array)) popped)
  ∧ repr m (set_count array (count array - 1)) elems.
Proof.
  intros R Hout.
  pose proof (repr_size _ _ _ R) as Hsz.
  pose proof (repr_count _ _ _ R) as Hcnt.
  pose proof (repr_count_cap _ _ _ R) as Hcc.
  pose proof (repr_cap_max _ _ _ R) as Hmax.
  pose proof (repr_bytes _ _ _ R) as Hby.
  rewrite length_app in Hcnt. simpl in Hcnt.
  assert (Z.of_nat (length e) = size array) as He.
  { pose proof (repr_elems _ _ _ R) as Hall.
    rewrite Forall_app, Forall_singleton in Hall. tauto. }
  split.
  - unfold pop_dyn_array. rewrite bool_decide_eq_false_2 by lia.
    rewrite (size_t_id (count array - 1)) by lia.
    rewrite size_t_id by nia.
    replace ((count array - 1) * size array)
      with (size array * Z.of_nat (length elems)) by lia.
    rewrite (load_elem _ _ _ _ e R); [|by apply list_lookup_middle].
    simpl.
    destruct (buffer_split popped (Z.to_nat (size array))) as (old & post & -> & Hold);
      [lia|].
    rewrite write_buf_front by lia. simpl.
    by rewrite <- Hold, drop_app_length.
  - destruct (repr_items _ _ _ R) as (l & rest & Hit & Hl & Hlen).
    constructor; simpl; try lia.
    + pose proof (repr_elems _ _ _ R) as Hall.
      rewrite Forall_app in Hall. tauto.
    + exists l, (e ++ rest). split; [done|].
      rewrite concat_app in Hl, Hlen. simpl in Hl, Hlen.
      rewrite app_nil_r, <- app_assoc in Hl, Hlen. done.
Qed.

(** The resizing branch on a full array: a new block of twice the
    capacity receives the live elements while the old block is still
    allocated, and only then the old block is released. *)
Lemma grow_spec m array elems :
  repr m array elems →
  count array = cap array →
  fits array →
  ∃ l pad m2,
    let l' := fresh (dom m) in
    let array' := {| items := Some l'; count := count array;
                     cap := cap array * 2; size := size array |} in
    items array = Some l
    ∧ m !! l = Some (concat elems)
    ∧ m !! l' = None
    ∧ memcpy (malloc m (cap array * 2 * size array)).1 (Some l') 0
             (Some l) 0 (size array * count array) = Done m2
    ∧ m2 !! l = Some (concat elems)
    ∧ m2 !! l' = Some (concat elems ++ pad)
    ∧ free m2 (Some l) = Done (delete l m2)
    ∧ grow m array = Done (delete l m2, array')
    ∧ repr (delete l m2) array' elems.
Proof.
  intros R Hfull [Hc2 Hb2].
  pose proof (repr_size _ _ _ R) as Hsz.
  pose proof (repr_cap_pos _ _ _ R) as Hpos.
  pose proof (repr_length_concat _ _ _ R) as Hcat.
  pose proof (repr_dest _ _ _ R) as Hdest.
  destruct (repr_items _ _ _ R) as (l & rest & Hit & Hl & Hlen).
  assert (rest = []) as ->.
  { apply length_zero_iff_nil. rewrite length_app in Hlen. nia. }
  rewrite app_nil_r in Hl, Hlen.
  set (l' := fresh (dom m)).
  assert (m !! l' = None) as Hfresh.
  { apply not_elem_of_dom. apply is_fresh. }
  assert (l ≠ l') as Hne by congruence.
  set (n := length (concat elems)) in *.
  set (N := Z.to_nat (cap array * 2 * size array)).
  assert (replicate N (None : cell)
          = replicate n None ++ replicate (N - n) None) as Hrep.
  { rewrite <- replicate_add. f_equal. lia. }
  set (pad := replicate (N - n) (None : cell)) in *.
  set (m1 := <[l' := replicate N None]> m).
  set (m2 := <[l' := concat elems ++ pad]> m1).
  assert (memcpy m1 (Some l') 0 (Some l) 0 (size array * count array)
          = Done m2) as Hcpy.
  { assert (m1 !! l = Some (concat elems)) as Hl1.
    { unfold m1. by rewrite lookup_insert_ne. }
    assert (m1 !! l' = Some (replicate N None)) as Hl1'.
    { unfold m1. by rewrite lookup_insert_eq. }
    unfold memcpy. rewrite bool_decide_eq_false_2 by (intros [? _]; congruence).
    unfold load. rewrite Hl1, <- Hcat.
    unfold n. rewrite read_buf_all. simpl.
    unfold store. rewrite Hl1', Hrep.
    rewrite write_buf_front; [done|]. by rewrite length_replicate. }
  assert (m2 !! l = Some (concat elems)) as Hl2.
  { unfold m2, m1. by rewrite !lookup_insert_ne. }
  exists l, pad, m2. simpl. fold l'.
  split; [done|]. split; [done|]. split; [done|].
  split; [done|]. split; [done|].
  split; [unfold m2; by rewrite lookup_insert_eq|].
  assert (free m2 (Some l) = Done (delete l m2)) as Hfree.
  { unfold free. by rewrite Hl2. }
  split; [done|]. split.
  - unfold grow. rewrite (size_t_id (cap array * 2)) by lia.
    rewrite (size_t_id (cap array * 2 * size array)) by nia.
    unfold malloc. fold l'. fold N. fold m1.
    rewrite Hdest, Hit, Hcpy. simpl. by rewrite Hfree.
  - constructor; simpl; try lia.
    + apply (repr_count _ _ _ R).
    + apply (repr_elems _ _ _ R).
    + exists l', pad. split; [done|]. split.
      * rewrite lookup_delete_ne by done. unfold m2. by rewrite lookup_insert_eq.
      * rewrite length_app. unfold pad. rewrite length_replicate. fold n. lia.
Qed.

(** After the resizing branch the function goes on as on an array with
    room. *)
Lemma push_grown m array v m1 array1 :
  cap array ≤ count array →
  grow m array = Done (m1, array1) →
  count array1 < cap array1 →
  push_dyn_array m array v = push_dyn_array m1 array1 v.
Proof.
  intros Hfull Hgrow Hroom. unfold push_dyn_array.
  rewrite bool_decide_eq_true_2, Hgrow by done. simpl.
  by rewrite bool_decide_eq_false_2 by lia.
Qed.

Lemma push_spec m array elems v :
  repr m array elems →
  size array ≤ Z.of_nat (length v) →
  count array < cap array ∨ fits array →
  ∃ m' array',
    push_dyn_array m array v = Done (m', array')
    ∧ repr m' array' (elems ++ [take (Z.to_nat (size array)) v])
    ∧ count array' = count array + 1
    ∧ size array' = size array
    ∧ cap array' = (if bool_decide (cap array ≤ count array)
                    then cap array * 2 else cap array).
Proof.
  intros R Hv Hfit.
  destruct (decide (count array < cap array)) as [Hroom|Hfull].
  - destruct (push_room _ _ _ _ R Hroom Hv) as (m' & _ & Hpush & R' & _).
    exists m', (set_count array (count array + 1)).
    rewrite bool_decide_eq_false_2 by lia. done.
  - pose proof (repr_count_cap _ _ _ R) as Hcc.
    pose proof (repr_cap_pos _ _ _ R) as Hpos.
    assert (count array = cap array) as Heq by lia.
    destruct Hfit as [?|Hfit]; [lia|].
    destruct (grow_spec _ _ _ R Heq Hfit)
      as (l & pad & m2 & _ & _ & _ & _ & _ & _ & _ & Hgrow & R1).
    simpl in Hgrow, R1.
    set (array1 := {| items := Some (fresh (dom m)); count := count array;
                      cap := cap array * 2; size := size array |}) in *.
    destruct (push_room _ _ _ v R1) as (m' & _ & Hpush & R' & _);
      [simpl; lia | done |].
    exists m', (set_count array1 (count array1 + 1)).
    rewrite (push_grown _ _ _ _ array1) by (done || simpl; lia).
    rewrite bool_decide_eq_true_2 by lia. done.
Qed.

(** A push that returns had room or a representable doubled size: with
    elements of at least one byte the stores into the new block catch
    every wrap-around. *)
Lemma push_done_fits m array elems v r :
  repr m array elems →
  0 < size array →
  push_dyn_array m array v = Done r →
  size array ≤ Z.of_nat (length v) ∧ (count array < cap array ∨ fits array).
Proof.
  intros R Hsz Hpush.
  pose proof (repr_count_cap _ _ _ R) as Hcc.
  pose proof (repr_cap_pos _ _ _ R) as Hpos.
  pose proof (repr_cap_max _ _ _ R) as Hmax.
  pose proof (repr_bytes _ _ _ R) as Hby.
  pose proof (repr_dest _ _ _ R) as Hdest.
  pose proof (repr_length_concat _ _ _ R) as Hcat.
  unfold push_dyn_array in Hpush.
  case_bool_decide as Hfull.
  - assert (count array = cap array) as Heq by lia.
    apply bind_done in Hpush as ([m3 array1] & Hgrow & Hpush). simpl in Hpush.
    apply bind_done in Hpush as (data & Hrd & Hpush).
    apply bind_done in Hpush as (m' & Hst & _).
    apply read_buf_done in Hrd as (_ & _ & Hrd & Hdata).
    unfold grow in Hgrow. simpl in Hgrow.
    apply bind_done in Hgrow as (m2 & Hcpy & Hgrow).
    apply bind_done in Hgrow as (m3' & Hfree & [= <- <-]).
    simpl in *.
    destruct (repr_items _ _ _ R) as (l & rest & Hit & Hl & Hlen).
    rewrite Hit in *.
    set (l' := fresh (dom m)) in *.
    assert (m !! l' = None) as Hfresh by (apply not_elem_of_dom, is_fresh).
    assert (l ≠ l') as Hne by congruence.
    unfold memcpy in Hcpy. case_bool_decide; [done|].
    apply bind_done in Hcpy as (cp & _ & Hcpy).
    apply store_done in Hcpy as (? & b & b' & [= <-] & Hb & Hw & ->).
    rewrite lookup_insert_eq in Hb. injection Hb as <-.
    apply write_buf_done in Hw as (_ & _ & Hb').
    rewrite length_replicate in Hb'.
    destruct (free_done _ _ _ Hfree l eq_refl) as [_ ->].
    apply store_done in Hst as (? & c & c' & [= <-] & Hc & Hw & _).
    rewrite lookup_delete_ne, lookup_insert_eq in Hc by done.
    injection Hc as <-.
    apply write_buf_done in Hw as (_ & Hw & _).
    rewrite Hdest, Hb', Hdata in Hw.
    pose proof (size_t_range (cap array * 2)) as Hr2.
    pose proof (size_t_le (size_t (cap array * 2) * size array) ltac:(nia)) as Hle.
    assert (size_t (cap array * 2) = cap array * 2) as Hc2.
    { destruct (size_t_double (cap array)) as [?|?]; [lia|done|nia]. }
    rewrite Hc2 in *.
    assert (size_t (cap array * size array * 2) = cap array * size array * 2)
      as Hb2.
    { replace (cap array * 2 * size array)
        with (cap array * size array * 2) in Hw by lia.
      destruct (size_t_double (cap array * size array)) as [?|?];
        [nia|done|nia]. }
    split; [lia|]. right. split; [lia|].
    pose proof (size_t_range (cap array * size array * 2)). lia.
  - simpl in Hpush.
    apply bind_done in Hpush as (data & Hrd & _).
    apply read_buf_done in Hrd as (_ & _ & Hrd & _).
    split; [lia|]. left. lia.
Qed.

Lemma new_dyn_array_repr m sz :
  0 ≤ sz → sz * 2 ≤ SIZE_MAX →
  repr (new_dyn_array m sz).1 (new_dyn_array m sz).2 [].
Proof.
  intros H0 H2. unfold new_dyn_array, malloc. simpl.
  rewrite size_t_id by lia.
  assert (2 ≤ SIZE_MAX) by (unfold SIZE_MAX; lia).
  constructor; simpl; try lia.
  - constructor.
  - eexists _, _. split; [done|]. split; [apply lookup_insert_eq|].
    rewrite length_replicate. lia.
Qed.

Lemma repr_dyn_inv m array elems : repr m array elems → dyn_inv array.
Proof.
  intros R. split; [apply (repr_count_cap _ _ _ R)|].
  destruct (repr_items _ _ _ R) as (l & rest & -> & _). done.
Qed.

(** A run of pushes appends its values, whatever the array held. *)
Lemma push_all_spec vs : ∀ m array elems,
  repr m array elems →
  Forall (λ v : buffer, Z.of_nat (length v) = size array) vs →
  (count array + Z.of_nat (length vs)) * 2 ≤ SIZE_MAX →
  (count array + Z.of_nat (length vs)) * 2 * size array ≤ SIZE_MAX →
  ∃ m' array',
    push_all m array vs = Done (m', array')
    ∧ repr m' array' (elems ++ vs)
    ∧ size array' = size array
    ∧ cap array ≤ cap array'.
Proof.
  induction vs as [|v vs IH]; intros m array elems R Hall Hc Hb.
  - exists m, array. rewrite app_nil_r. simpl. split; [done|]. split; [done|]. lia.
  - apply Forall_cons in Hall as [Hv Hall]. simpl in Hc, Hb.
    pose proof (repr_size _ _ _ R) as Hsz.
    pose proof (repr_count_cap _ _ _ R) as Hcc.
    pose proof (repr_count _ _ _ R) as Hcnt.
    pose proof (repr_cap_pos _ _ _ R) as Hpos.
    destruct (push_spec m array elems v R) as (m1 & array1 & Hpush & R1 & Hc1 & Hs1 & Hcap1).
    { lia. }
    { destruct (decide (count array < cap array)); [by left|right].
      unfold fits. split; nia. }
    rewrite take_ge in R1 by lia.
    destruct (IH m1 array1 (elems ++ [v]) R1) as (m' & array' & Hrun & R' & Hs' & Hcap').
    { by rewrite Hs1. }
    { lia. }
    { rewrite Hs1. nia. }
    exists m', array'. simpl. rewrite Hpush. simpl.
    rewrite <- app_assoc in R'. simpl in R'.
    split; [done|]. split; [done|]. split; [congruence|].
    case_bool_decide; lia.
Qed.

(** Without any bound on the sizes: a run of pushes of non-empty
    elements that returns has appended its values.  A size that wraps
    around can only end the run in a fault. *)
Lemma push_all_done vs : ∀ m array elems m' array',
  repr m array elems →
  0 < size array →
  push_all m array vs = Done (m', array') →
  repr m' array' (elems ++ (take (Z.to_nat (size array)) <$> vs))
  ∧ size array' = size array.
Proof.
  induction vs as [|v vs IH]; intros m array elems m' array' R Hsz Hrun.
  - simpl in *. injection Hrun as <- <-. by rewrite app_nil_r.
  - simpl in Hrun. apply bind_done in Hrun as ([m1 array1] & Hpush & Hrun).
    destruct (push_done_fits _ _ _ _ _ R Hsz Hpush) as [Hv Hfit].
    destruct (push_spec _ _ _ v R Hv Hfit)
      as (m2 & array2 & Hpush2 & R2 & _ & Hs2 & _).
    rewrite Hpush in Hpush2. injection Hpush2 as <- <-.
    destruct (IH _ _ _ _ _ R2 ltac:(lia) Hrun) as [R' Hs'].
    rewrite Hs2 in R', Hs'. rewrite <- app_assoc in R'. done.
Qed.

(** Three pushes grow the array once; the pop hands back the third
    element and leaves the first two in place. *)
Example dyn_main_run :
  let '(m, array) := new_dyn_array ∅ 2 in
  ('(m, array) ← push_all m array [e1; e2; e3];
   '(r, array', popped) ← pop_dyn_array m array [None; None];
   Done (cap array, r, popped, count array',
         element_at m array' 0, element_at m array' 1))
  = Done (4, 1, e3, 2, Done e1, Done e2).
Proof. reflexivity. Qed.

(** C1: for every sequence of pushes on an array created with element size
    [n], the run returns, the length is the number of pushes, and the
    element at every index below the length is the value of the push of
    that index, in push order, across all reallocations.  The byte size
    of the storage is assumed to stay a [size_t] value, without which no
    allocation of it can succeed. *)
Theorem push_sequence (m0 : mem) (n : Z) (vs : list buffer) :
  0 ≤ n →
  Forall (λ v : buffer, Z.of_nat (length v) = n) vs →
  Z.max 1 n * 2 * Z.max 1 (Z.of_nat (length vs)) ≤ SIZE_MAX →
  ∃ m array,
    push_all (new_dyn_array m0 n).1 (new_dyn_array m0 n).2 vs = Done (m, array)
    ∧ count array = Z.of_nat (length vs)
    ∧ (∀ (i : nat) v, vs !! i = Some v →
         element_at m array (Z.of_nat i) = Done v).
Proof.
  intros Hn Hall Hb.
  pose proof (Z.le_max_l 1 n). pose proof (Z.le_max_r 1 n).
  pose proof (Z.le_max_l 1 (Z.of_nat (length vs))).
  pose proof (Z.le_max_r 1 (Z.of_nat (length vs))).
  assert (repr (new_dyn_array m0 n).1 (new_dyn_array m0 n).2 []) as R0.
  { apply new_dyn_array_repr; [lia|nia]. }
  destruct (push_all_spec vs _ _ _ R0) as (m & array & Hrun & R & _ & _).
  - done.
  - simpl. nia.
  - simpl. nia.
  - simpl in R. exists m, array. split; [done|].
    split; [apply (repr_count _ _ _ R)|].
    intros i v Hi. by apply (element_at_spec _ _ _ _ _ R).
Qed.

Lemma push_sequence_witness :
  0 ≤ 2
  ∧ Forall (λ v : buffer, Z.of_nat (length v) = 2) [e1; e2; e3]
  ∧ Z.max 1 2 * 2 * Z.max 1 (Z.of_nat (length [e1; e2; e3])) ≤ SIZE_MAX
  ∧ ∃ m array,
      push_all (new_dyn_array ∅ 2).1 (new_dyn_array ∅ 2).2 [e1; e2; e3]
      = Done (m, array)
      ∧ count array = Z.of_nat (length [e1; e2; e3])
      ∧ (∀ (i : nat) v, [e1; e2; e3] !! i = Some v →
           element_at m array (Z.of_nat i) = Done v).
Proof.
  assert (0 ≤ 2) as H0 by lia.
  assert (Forall (λ v : buffer, Z.of_nat (length v) = 2) [e1; e2; e3]) as H1
    by (repeat constructor).
  assert (Z.max 1 2 * 2 * Z.max 1 (Z.of_nat (length [e1; e2; e3])) ≤ SIZE_MAX)
    as H2 by (vm_compute; discriminate).
  split; [exact H0|]. split; [exact H1|]. split; [exact H2|].
  exact (push_sequence ∅ 2 [e1; e2; e3] H0 H1 H2).
Defined.

(** The full-array push in detail. *)
Lemma push_full m array elems v :
  repr m array elems →
  count array = cap array →
  fits array →
  Z.of_nat (length v) = size array →
  ∃ l pad m2 m',
    let l' := fresh (dom m) in
    let array1 := {| items := Some l'; count := count array;
                     cap := cap array * 2; size := size array |} in
    items array = Some l
    ∧ m !! l = Some (concat elems)
    ∧ m !! l' = None
    ∧ memcpy (malloc m (cap array * 2 * size array)).1 (Some l') 0
             (Some l) 0 (size array * count array) = Done m2
    ∧ m2 !! l = Some (concat elems)
    ∧ m2 !! l' = Some (concat elems ++ pad)
    ∧ free m2 (Some l) = Done (delete l m2)
    ∧ grow m array = Done (delete l m2, array1)
    ∧ store (delete l m2) (Some l') (size array * count array) v = Done m'
    ∧ push_dyn_array m array v
      = Done (m', set_count array1 (count array + 1))
    ∧ repr m' (set_count array1 (count array + 1)) (elems ++ [v])
    ∧ m' !! l = None.
Proof.
  intros R Heq Hfit Hv.
  pose proof (repr_cap_pos _ _ _ R) as Hpos.
  destruct (grow_spec _ _ _ R Heq Hfit)
    as (l & pad & m2 & Hit & Hl & Hfresh & Hcpy & Hl2 & Hl2' & Hfree & Hgrow & R1).
  simpl in *.
  set (array1 := {| items := Some (fresh (dom m)); count := count array;
                    cap := cap array * 2; size := size array |}) in *.
  destruct (push_room _ _ _ v R1) as (m' & Hstore & Hpush & R' & Hdom);
    [simpl; lia | simpl; lia |].
  simpl in R', Hstore. rewrite take_ge in R', Hstore by lia.
  exists l, pad, m2, m'.
  repeat (split; [done|]).
  split. { rewrite (push_grown _ _ _ _ array1) by (done || simpl; lia). done. }
  split; [done|].
  apply not_elem_of_dom. rewrite Hdom, dom_delete_L.
  apply not_elem_of_difference. right. by apply elem_of_singleton.
Qed.

(** C2: on every array whose length equals its capacity, push allocates
    a block for twice the capacity, copies the live elements into it while
    the old block is still allocated, releases the old block, writes the
    value into the slot at index length and increments the length; so
    [2k+1] pushes into a new array (capacity 2) end with a capacity of at
    least [2k+1] and every element readable unchanged.  The doubled byte
    size is assumed to be a [size_t] value. *)
Theorem push_full_doubles :
  (∀ m array elems v,
     repr m array elems →
     count array = cap array →
     fits array →
     Z.of_nat (length v) = size array →
     ∃ l l' pad m2 m' array',
       items array = Some l ∧ m !! l' = None
       ∧ malloc m (size_t (size_t (cap array * 2) * size array))
         = (<[l' := replicate (Z.to_nat (cap array * 2 * size array)) None]> m,
            Some l')
       ∧ memcpy (<[l' := replicate (Z.to_nat (cap array * 2 * size array)) None]> m)
                (Some l') 0 (Some l) 0 (size array * count array) = Done m2
       ∧ m2 !! l = m !! l
       ∧ m2 !! l' = Some (concat elems ++ pad)
       ∧ free m2 (Some l) = Done (delete l m2)
       ∧ store (delete l m2) (Some l') (size array * count array) v = Done m'
       ∧ push_dyn_array m array v = Done (m', array')
       ∧ items array' = Some l'
       ∧ m' !! l = None
       ∧ (∃ b, m' !! l' = Some b
               ∧ Z.of_nat (length b) = cap array * 2 * size array)
       ∧ cap array' = cap array * 2
       ∧ count array' = count array + 1
       ∧ size array' = size array
       ∧ (∀ (i : nat) e, elems !! i = Some e →
            element_at m' array' (Z.of_nat i) = Done e)
       ∧ element_at m' array' (count array) = Done v)
  ∧ (∀ m0 n (k : nat) vs,
       0 ≤ n →
       length vs = (2 * k + 1)%nat →
       Forall (λ v : buffer, Z.of_nat (length v) = n) vs →
       Z.max 1 n * 2 * Z.of_nat (2 * k + 1) ≤ SIZE_MAX →
       ∃ m array,
         push_all (new_dyn_array m0 n).1 (new_dyn_array m0 n).2 vs
         = Done (m, array)
         ∧ Z.of_nat (2 * k + 1) ≤ cap array
         ∧ ∀ (i : nat) v, vs !! i = Some v →
             element_at m array (Z.of_nat i) = Done v).
Proof.
  split.
  - intros m array elems v R Heq Hfit Hv.
    destruct (push_full _ _ _ _ R Heq Hfit Hv)
      as (l & pad & m2 & m' & Hit & Hl & Hfresh & Hcpy & Hl2 & Hl2'
          & Hfree & Hgrow & Hstore & Hpush & R' & Hgone).
    simpl in *.
    set (array1 := {| items := Some (fresh (dom m)); count := count array;
                      cap := cap array * 2; size := size array |}) in *.
    exists l, (fresh (dom m)), pad, m2, m', (set_count array1 (count array + 1)).
    split; [done|]. split; [done|]. split.
    { destruct Hfit as [Hc2 Hb2].
      pose proof (repr_cap_pos _ _ _ R). pose proof (repr_size _ _ _ R).
      rewrite (size_t_id (cap array * 2)) by lia.
      rewrite (size_t_id (cap array * 2 * size array)) by nia. done. }
    split; [done|]. split; [congruence|].
    repeat (split; [done|]).
    split.
    { destruct (repr_items _ _ _ R') as (l1 & rest & Hi1 & Hl1 & Hlen).
      simpl in Hi1. injection Hi1 as <-.
      eexists. split; [exact Hl1|]. by rewrite Hlen. }
    repeat (split; [done|]). split.
    + intros i e Hi. apply (element_at_spec _ _ _ _ _ R').
      by apply lookup_app_l_Some.
    + rewrite (repr_count _ _ _ R). apply (element_at_spec _ _ _ _ _ R').
      by apply list_lookup_middle.
  - intros m0 n k vs Hn Hlen Hall Hb.
    pose proof (Z.le_max_l 1 n). pose proof (Z.le_max_r 1 n).
    assert (repr (new_dyn_array m0 n).1 (new_dyn_array m0 n).2 []) as R0.
    { apply new_dyn_array_repr; [lia|nia]. }
    destruct (push_all_spec vs _ _ _ R0) as (m & array & Hrun & R & _ & _).
    + done.
    + simpl. nia.
    + simpl. nia.
    + simpl in R. exists m, array. split; [done|]. split.
      * pose proof (repr_count _ _ _ R). pose proof (repr_count_cap _ _ _ R). lia.
      * intros i v Hi. by apply (element_at_spec _ _ _ _ _ R).
Qed.

Lemma full_array_repr : repr full_mem full_array [e1; e2].
Proof.
  constructor; try (vm_compute; congruence).
  - repeat constructor.
  - exists 1%positive, []. repeat split; reflexivity.
Defined.

Lemma push_full_doubles_witness :
  (count full_array = cap full_array
   ∧ fits full_array
   ∧ Z.of_nat (length e3) = size full_array
   ∧ ∃ m' array',
       push_dyn_array full_mem full_array e3 = Done (m', array')
       ∧ cap array' = cap full_array * 2
       ∧ count array' = count full_array + 1
       ∧ element_at m' array' 0 = Done e1
       ∧ element_at m' array' 1 = Done e2
       ∧ element_at m' array' 2 = Done e3)
  ∧ (∃ m array,
       push_all (new_dyn_array ∅ 2).1 (new_dyn_array ∅ 2).2 [e1; e2; e3]
       = Done (m, array)
       ∧ Z.of_nat (2 * 1 + 1) ≤ cap array
       ∧ ∀ (i : nat) v, [e1; e2; e3] !! i = Some v →
           element_at m array (Z.of_nat i) = Done v).
Proof.
  split.
  - assert (fits full_array) as Hfit by (split; vm_compute; congruence).
    split; [reflexivity|]. split; [exact Hfit|]. split; [reflexivity|].
    destruct (proj1 push_full_doubles full_mem full_array [e1; e2] e3
                full_array_repr eq_refl Hfit eq_refl)
      as (l & l' & pad & m2 & m' & array' & _ & _ & _ & _ & _ & _ & _ & _
          & Hpush & _ & _ & _ & Hcap & Hcnt & _ & Hold & Hnew).
    exists m', array'. split; [exact Hpush|]. split; [exact Hcap|].
    split; [exact Hcnt|].
    split; [exact (Hold 0%nat e1 eq_refl)|].
    split; [exact (Hold 1%nat e2 eq_refl)|exact Hnew].
  - apply (proj2 push_full_doubles ∅ 2 1%nat [e1; e2; e3]).
    + lia.
    + reflexivity.
    + repeat constructor.
    + vm_compute. congruence.
Defined.

(** A non-empty array ends with an element. *)
Lemma repr_last m array elems :
  repr m array elems →
  0 < count array →
  ∃ elems' e, elems = elems' ++ [e]
              ∧ Z.to_nat (count array - 1) = length elems'.
Proof.
  intros R Hpos. pose proof (repr_count _ _ _ R) as Hcnt.
  destruct elems as [|e elems' _] using rev_ind; [simpl in Hcnt; lia|].
  exists elems', e. split; [done|]. rewrite length_app in Hcnt. simpl in Hcnt. lia.
Qed.

(** A pop that returns on a non-empty array was given room for one
    element. *)
Lemma pop_done_room m array popped r :
  0 ≤ size array →
  count array ≠ 0 →
  pop_dyn_array m array popped = Done r →
  size array ≤ Z.of_nat (length popped).
Proof.
  intros Hsz Hne Hpop. unfold pop_dyn_array in Hpop.
  rewrite bool_decide_eq_false_2 in Hpop by done.
  apply bind_done in Hpop as (data & Hld & Hpop).
  apply bind_done in Hpop as (popped' & Hw & _).
  apply load_done in Hld as (l & b & _ & _ & Hrd).
  apply read_buf_done in Hrd as (_ & _ & _ & Hdata).
  apply write_buf_done in Hw as (_ & Hw & _). lia.
Qed.

(** C3: pop on an array of length 0 returns 0 (false) and hands the
    output buffer back as it was, whatever the array and the buffer are;
    it is a returned value, never a fault.  On an array of positive length
    it copies the [size] bytes of the element at index [length - 1] into
    the front of the output buffer, decrements the length by one and
    returns 1 (true). *)
Theorem pop_spec :
  (∀ m array popped,
     count array = 0 →
     pop_dyn_array m array popped = Done (0, array, popped))
  ∧ (∀ m array elems popped,
       repr m array elems →
       0 < count array →
       size array ≤ Z.of_nat (length popped) →
       ∃ e array',
         elems !! Z.to_nat (count array - 1) = Some e
         ∧ element_at m array (count array - 1) = Done e
         ∧ pop_dyn_array m array popped
           = Done (1, array', e ++ drop (Z.to_nat (size array)) popped)
         ∧ count array' = count array - 1
         ∧ items array' = items array
         ∧ cap array' = cap array
         ∧ size array' = size array).
Proof.
  split.
  - intros m array popped H0. unfold pop_dyn_array.
    by rewrite bool_decide_eq_true_2.
  - intros m array elems popped R Hpos Hout.
    destruct (repr_last _ _ _ R Hpos) as (elems' & e & -> & Hidx).
    destruct (pop_last _ _ _ _ _ R Hout) as [Hpop _].
    exists e, (set_count array (count array - 1)).
    assert ((elems' ++ [e]) !! Z.to_nat (count array - 1) = Some e) as Hlk.
    { by apply list_lookup_middle. }
    split; [done|]. split; [|done].
    rewrite <- (Z2Nat.id (count array - 1)) by lia.
    by apply (element_at_spec _ _ _ _ _ R).
Qed.

Lemma pop_spec_witness :
  (count (set_count full_array 0) = 0
   ∧ pop_dyn_array full_mem (set_count full_array 0) e3
     = Done (0, set_count full_array 0, e3))
  ∧ (0 < count full_array
     ∧ size full_array ≤ Z.of_nat (length e3)
     ∧ ∃ e array',
         [e1; e2] !! Z.to_nat (count full_array - 1) = Some e
         ∧ element_at full_mem full_array (count full_array - 1) = Done e
         ∧ pop_dyn_array full_mem full_array e3
           = Done (1, array', e ++ drop (Z.to_nat (size full_array)) e3)
         ∧ count array' = count full_array - 1
         ∧ items array' = items full_array
         ∧ cap array' = cap full_array
         ∧ size array' = size full_array).
Proof.
  split.
  - split; [reflexivity|].
    apply (proj1 pop_spec full_mem (set_count full_array 0) e3). reflexivity.
  - assert (0 < count full_array) as H0 by (simpl; lia).
    assert (size full_array ≤ Z.of_nat (length e3)) as H1 by (simpl; lia).
    split; [exact H0|]. split; [exact H1|].
    exact (proj2 pop_spec full_mem full_array [e1; e2] e3 full_array_repr H0 H1).
Defined.

(** C6: on every array, a push followed at once by a pop into a buffer
    of [size] bytes returns, the buffer then holds exactly the pushed
    bytes, the pop reports success, and the length (and the elements
    held) are those from before the push.  When the push has to grow, the
    doubled byte size is assumed to be a [size_t] value. *)
Theorem push_pop_roundtrip m array elems v popped :
  repr m array elems →
  count array < cap array ∨ fits array →
  Z.of_nat (length v) = size array →
  Z.of_nat (length popped) = size array →
  ∃ m' array' array'',
    push_dyn_array m array v = Done (m', array')
    ∧ pop_dyn_array m' array' popped = Done (1, array'', v)
    ∧ count array'' = count array
    ∧ repr m' array'' elems.
Proof.
  intros R Hfit Hv Hout.
  destruct (push_spec _ _ _ v R) as (m' & array' & Hpush & R' & Hcnt & Hsz & _);
    [lia|done|].
  rewrite take_ge in R' by lia.
  destruct (pop_last _ _ _ _ popped R') as [Hpop R'']; [lia|].
  rewrite drop_ge, app_nil_r in Hpop by lia.
  exists m', array', (set_count array' (count array' - 1)).
  split; [done|]. split; [done|]. split; [simpl; lia|done].
Qed.

Lemma push_pop_roundtrip_witness :
  (count full_array < cap full_array ∨ fits full_array)
  ∧ Z.of_nat (length e3) = size full_array
  ∧ Z.of_nat (length [None; None : cell]) = size full_array
  ∧ ∃ m' array' array'',
      push_dyn_array full_mem full_array e3 = Done (m', array')
      ∧ pop_dyn_array m' array' [None; None] = Done (1, array'', e3)
      ∧ count array'' = count full_array
      ∧ repr m' array'' [e1; e2].
Proof.
  assert (count full_array < cap full_array ∨ fits full_array) as H0.
  { right. split; vm_compute; congruence. }
  split; [exact H0|]. split; [reflexivity|]. split; [reflexivity|].
  exact (push_pop_roundtrip full_mem full_array [e1; e2] e3 [None; None]
           full_array_repr H0 eq_refl eq_refl).
Defined.

(** A push whose growth allocation fails does not return: the copy into
    the new storage goes through [NULL]. *)
Lemma push_alloc_fails m array elems v :
  repr m array elems →
  cap array ≤ count array →
  push_dyn_array_alloc false m array v = Fault.
Proof.
  intros R Hfull. destruct (repr_items _ _ _ R) as (l & rest & Hit & _).
  unfold push_dyn_array_alloc. rewrite bool_decide_eq_true_2 by done.
  unfold grow_alloc, alloc, malloc_null, memcpy. rewrite Hit.
  rewrite bool_decide_eq_false_2 by (intros [? _]; done).
  by destruct (load m (Some l) 0 (size_t (size array * count array))).
Qed.

(** Without resizing no allocation is made. *)
Lemma push_alloc_room ok m array v :
  ¬ cap array ≤ count array →
  push_dyn_array_alloc ok m array v = push_dyn_array m array v.
Proof.
  intros Hroom. unfold push_dyn_array_alloc, push_dyn_array.
  by rewrite !bool_decide_eq_false_2 by done.
Qed.




End DynArrFacts.

(** ** The linked list *)

Module LinkedListFacts.
Import LinkedList.

Lemma chain_functional h : ∀ ns1 ns2 p,
  chain h p ns1 → chain h p ns2 → ns1 = ns2.
Proof.
  induction ns1 as [|[l v] ns1 IH]; intros [|[l2 v2] ns2] p H1 H2; simpl in *.
  - done.
  - destruct H2 as [-> _]. done.
  - destruct H1 as [-> _]. done.
  - destruct H1 as [-> (nx & Hl & H1)]. destruct H2 as [[= <-] (nx2 & Hl2 & H2)].
    rewrite Hl in Hl2. injection Hl2 as <- <-.
    f_equal. by eapply IH.
Qed.

Lemma chain_app_inv h : ∀ ns1 ns2 p,
  chain h p (ns1 ++ ns2) → ∃ q, chain h q ns2.
Proof.
  induction ns1 as [|[l v] ns1 IH]; intros ns2 p H; simpl in *.
  - by exists p.
  - destruct H as [_ (nx & _ & H)]. by eapply IH.
Qed.

Lemma chain_head h p l v ns :
  chain h p ((l, v) :: ns) → p = Some l.
Proof. by intros [-> _]. Qed.

(** The nodes of a chain are allocated. *)
Lemma chain_allocated h : ∀ ns p l,
  chain h p ns → l ∈ ns.*1 → is_Some (h !! l).
Proof.
  induction ns as [|[l0 v] ns IH]; intros p l H Hin; simpl in *.
  - by apply elem_of_nil in Hin.
  - destruct H as [_ (nx & Hl & H)].
    apply elem_of_cons in Hin as [->|Hin]; [eauto|by eapply IH].
Qed.

(** A chain that ends passes through no node twice. *)
Lemma chain_nodup h : ∀ ns p, chain h p ns → NoDup ns.*1.
Proof.
  induction ns as [|[l v] ns IH]; intros p H; simpl.
  - constructor.
  - pose proof H as Hfull. destruct H as [-> (nx & Hl & H)].
    constructor; [|by eapply IH].
    intros Hin. apply list_elem_of_fmap in Hin as ([l' v'] & Heq & Hin).
    simpl in Heq. subst l'.
    apply list_elem_of_split in Hin as (a & b & ->).
    destruct (chain_app_inv _ _ _ _ H) as (q & Hq).
    pose proof (chain_head _ _ _ _ _ Hq) as ->.
    pose proof (chain_functional _ _ _ _ Hq Hfull) as Heq.
    apply (f_equal length) in Heq. simpl in Heq.
    rewrite length_app in Heq. simpl in Heq. lia.
Qed.

Lemma chain_last h : ∀ ns p t tv,
  chain h p (ns ++ [(t, tv)]) → h !! t = Some {| next := None; value := tv |}.
Proof.
  induction ns as [|[l v] ns IH]; intros p t tv H; simpl in *.
  - destruct H as [_ (nx & Hl & ->)]. done.
  - destruct H as [_ (nx & _ & H)]. by eapply IH.
Qed.

(** Allocating a node outside a chain leaves the chain as it is. *)
Lemma chain_insert_fresh h node x : ∀ ns p,
  chain h p ns → node ∉ ns.*1 → chain (<[node := x]> h) p ns.
Proof.
  induction ns as [|[l v] ns IH]; intros p H Hnot; simpl in *; [done|].
  destruct H as [-> (nx & Hl & H)]. split; [done|].
  apply not_elem_of_cons in Hnot as [Hne Hnot].
  exists nx. split; [by rewrite lookup_insert_ne|by apply IH].
Qed.

(** Linking a node behind the last node of a chain extends the chain. *)
Lemma chain_snoc h node v : ∀ ns p t tv,
  chain h p (ns ++ [(t, tv)]) →
  node ∉ (ns ++ [(t, tv)]).*1 →
  h !! node = Some {| next := None; value := v |} →
  chain (<[t := {| next := Some node; value := tv |}]> h) p
        ((ns ++ [(t, tv)]) ++ [(node, v)]).
Proof.
  intros ns p t tv H Hnot Hnode.
  pose proof (chain_nodup _ _ _ H) as Hnd.
  revert p H Hnot Hnd.
  induction ns as [|[l lv] ns IH]; intros p H Hnot Hnd; simpl in *.
  - destruct H as [-> (nx & Hl & ->)]. split; [done|].
    apply not_elem_of_cons in Hnot as [Hne _].
    exists (Some node). split; [by rewrite lookup_insert_eq|].
    split; [done|]. exists None. by rewrite lookup_insert_ne.
  - destruct H as [-> (nx & Hl & H)]. split; [done|].
    apply not_elem_of_cons in Hnot as [Hne Hnot].
    apply NoDup_cons in Hnd as [Hl_not Hnd].
    assert (t ≠ l) as Htl.
    { intros ->. apply Hl_not. rewrite fmap_app. simpl.
      apply elem_of_app. right. by apply list_elem_of_singleton. }
    exists nx. split; [by rewrite lookup_insert_ne|by apply IH].
Qed.

Lemma new_node_fresh (h : nodes) : h !! new_node h = None.
Proof. apply not_elem_of_dom. unfold new_node. apply is_fresh. Qed.

Lemma new_node_not_in_chain h ns p :
  chain h p ns → new_node h ∉ ns.*1.
Proof.
  intros H Hin. destruct (chain_allocated _ _ _ _ H Hin) as [n Hn].
  by rewrite new_node_fresh in Hn.
Qed.

(** [push_node] on the empty list. *)
Lemma push_node_empty h l v :
  head l = None →
  push_node h l v
  = Done (<[new_node h := {| next := None; value := v |}]> h,
          {| head := Some (new_node h); tail := Some (new_node h) |}).
Proof. intros H. unfold push_node. by rewrite H. Qed.

(** [push_node] behind a tail node. *)
Lemma push_node_tail h l v hd t tn :
  head l = Some hd →
  tail l = Some t →
  h !! t = Some tn →
  push_node h l v
  = Done (<[t := {| next := Some (new_node h); value := value tn |}]>
            (<[new_node h := {| next := None; value := v |}]> h),
          {| head := Some hd; tail := Some (new_node h) |}).
Proof.
  intros Hhd Htl Ht. unfold push_node. rewrite Hhd, Htl.
  rewrite lookup_insert_ne, Ht; [by simpl; rewrite Hhd|].
  intros <-. by rewrite new_node_fresh in Ht.
Qed.

(** [push_node] keeps the invariant and appends its node to the chain. *)
Lemma push_node_inv h l ns v :
  list_inv h l ns →
  ∃ h' l',
    push_node h l v = Done (h', l')
    ∧ list_inv h' l' (ns ++ [(new_node h, v)])
    ∧ tail l' = Some (new_node h)
    ∧ h' !! new_node h = Some {| next := None; value := v |}.
Proof.
  intros [Hch Htl].
  pose proof (new_node_not_in_chain _ _ _ Hch) as Hnot.
  destruct ns as [|[t tv] ns _] using rev_ind.
  - simpl in Hch. rewrite (push_node_empty _ _ _ Hch).
    eexists _, _. split; [done|]. split; [|split; [done|]].
    + constructor; simpl; [|done]. split; [done|].
      exists None. by rewrite lookup_insert_eq.
    + by rewrite lookup_insert_eq.
  - rewrite fmap_app in Htl. simpl in Htl. rewrite last_snoc in Htl.
    pose proof (chain_last _ _ _ _ _ Hch) as Ht.
    assert (∃ hd, head l = Some hd) as [hd Hhd].
    { destruct ns as [|[l0 v0] ns]; simpl in Hch; destruct Hch as [-> _]; eauto. }
    rewrite (push_node_tail _ _ _ _ _ _ Hhd Htl Ht). simpl.
    assert (t ≠ new_node h) as Hne.
    { intros ->. by rewrite new_node_fresh in Ht. }
    eexists _, _. split; [done|]. split; [|split; [done|]].
    + constructor; simpl.
      * rewrite <- Hhd. apply chain_snoc; [|done|by rewrite lookup_insert_eq].
        by apply chain_insert_fresh.
      * rewrite fmap_app. simpl. by rewrite last_snoc.
    + by rewrite lookup_insert_ne, lookup_insert_eq.
Qed.

(** A run of appends extends the chain by one node per value, in
    order. *)
Lemma append_all_inv vs : ∀ h l ns,
  list_inv h l ns →
  ∃ h' l' ns',
    append_all h l vs = Done (h', l')
    ∧ list_inv h' l' (ns ++ ns')
    ∧ ns'.*2 = vs.
Proof.
  induction vs as [|v vs IH]; intros h l ns Hinv.
  - exists h, l, []. rewrite app_nil_r. done.
  - destruct (push_node_inv _ _ _ v Hinv) as (h1 & l1 & Hpush & Hinv1 & _).
    destruct (IH _ _ _ Hinv1) as (h' & l' & ns' & Hrun & Hinv' & Hvals).
    exists h', l', ((new_node h, v) :: ns').
    simpl. rewrite Hpush. simpl. rewrite <- app_assoc in Hinv'.
    split; [done|]. split; [done|]. by f_equal.
Qed.

Lemma append_all_snoc vs v : ∀ h l h1 l1,
  append_all h l vs = Done (h1, l1) →
  append_all h l (vs ++ [v]) = push_node h1 l1 v.
Proof.
  induction vs as [|w vs IH]; intros h l h1 l1 Hrun; simpl in *.
  - injection Hrun as <- <-. by destruct (push_node h l v) as [[??]|].
  - destruct (push_node h l w) as [[h2 l2]|]; [|done]. simpl in *. by apply IH.
Qed.

(** The traversal along a chain calls the visitor on the nodes of the
    chain, in order, and returns once the fuel covers the chain. *)
Lemma walk_chain {A : Type} h (nfn : NodeFn A) : ∀ ns outs p fuel,
  chain h (Some p) ns →
  Forall2 (λ n o, nfn h (Some n.1) = Done o) ns outs →
  (length ns ≤ fuel)%nat →
  walk_and_print_list fuel h (Some p) nfn = Some (Done outs).
Proof.
  induction ns as [|[l v] ns IH]; intros outs p fuel Hch Hall Hfuel.
  - simpl in Hch. done.
  - destruct Hch as [[= ->] (nx & Hl & Hch)].
    apply Forall2_cons_inv_l in Hall as (o & outs' & Ho & Hall & ->).
    simpl in Ho. destruct fuel as [|fuel]; [simpl in Hfuel; lia|].
    simpl. rewrite Ho, Hl. simpl.
    destruct ns as [|[l2 v2] ns].
    + simpl in Hch. subst nx. by apply Forall2_nil_inv_l in Hall as ->.
    + pose proof (chain_head _ _ _ _ _ Hch) as ->.
      rewrite (IH outs' l2 fuel); [done|done|done|simpl in *; lia].
Qed.

Lemma chain_print h : ∀ ns p,
  chain h p ns →
  Forall2 (λ n o, print_node h (Some n.1) = Done o) ns ns.*2.
Proof.
  induction ns as [|[l v] ns IH]; intros p Hch; simpl in *.
  - constructor.
  - destruct Hch as [-> (nx & Hl & Hch)]. constructor; [|by eapply IH].
    simpl. by rewrite Hl.
Qed.

(** No traversal from the absent pointer returns a result. *)
Lemma walk_null {A : Type} fuel h (nfn : NodeFn A) :
  walk_and_print_list (S fuel) h None nfn = Some Fault.
Proof. simpl. by destruct (nfn h None). Qed.

Lemma hop_chain h : ∀ ns p (k : nat) l,
  chain h p ns → ns.*1 !! k = Some l → hop h k p = Some l.
Proof.
  induction ns as [|[l0 v] ns IH]; intros p k l Hch Hk; simpl in *; [done|].
  destruct Hch as [-> (nx & Hl & Hch)].
  destruct k as [|k]; simpl in *; [done|].
  rewrite Hl. simpl. by eapply IH.
Qed.

Lemma hop_chain_end h : ∀ ns p,
  chain h p ns → hop h (length ns) p = None.
Proof.
  induction ns as [|[l0 v] ns IH]; intros p Hch; simpl in *; [done|].
  destruct Hch as [-> (nx & Hl & Hch)]. rewrite Hl. simpl. by apply IH.
Qed.

Lemma hop_chain_inv h : ∀ ns p (k : nat) a,
  chain h p ns → hop h k p = Some a → ns.*1 !! k = Some a.
Proof.
  induction ns as [|[l0 v] ns IH]; intros p k a Hch Hk; simpl in *.
  - subst p. by destruct k.
  - destruct Hch as [-> (nx & Hl & Hch)].
    destruct k as [|k]; simpl in *; [done|].
    rewrite Hl in Hk. simpl in Hk. by eapply IH.
Qed.

(** A list with a head has a tail node, and that node ends the chain. *)
Lemma list_inv_tail h l ns hd :
  list_inv h l ns →
  head l = Some hd →
  ∃ t tv, tail l = Some t ∧ h !! t = Some {| next := None; value := tv |}.
Proof.
  intros [Hch Htl] Hhd.
  destruct ns as [|[t tv] ns _] using rev_ind.
  - simpl in Hch. congruence.
  - rewrite fmap_app in Htl. simpl in Htl. rewrite last_snoc in Htl.
    exists t, tv. split; [done|]. by eapply chain_last.
Qed.

(** The run of [main]. *)
Example list_main_run :
  ('(h, l) ← append_all ∅ empty_list [5; 10; 20; 40; 50];
   Done (walk_and_print_list 5 h (head l) print_node))
  = Done (Some (Done [5; 10; 20; 40; 50])).
Proof. reflexivity. Qed.

(** C4, as the code has it: for every non-empty sequence of appends to
    the empty list the traversal from head returns, once the fuel covers
    the list, and delivers exactly the appended values, once each, in
    append order; after every append the tail is the node that this
    append created.  After appending 5, 10, 20, 40 the traversal delivers
    5, 10, 20, 40, the head holds 5 and the tail holds 40. *)
Theorem append_traverse :
  (∀ h0 vs,
     vs ≠ [] →
     ∃ h l,
       append_all h0 empty_list vs = Done (h, l)
       ∧ ∀ fuel, (length vs ≤ fuel)%nat →
           walk_and_print_list fuel h (head l) print_node = Some (Done vs))
  ∧ (∀ h0 vs v,
       ∃ h1 l1 h2 l2,
         append_all h0 empty_list vs = Done (h1, l1)
         ∧ push_node h1 l1 v = Done (h2, l2)
         ∧ append_all h0 empty_list (vs ++ [v]) = Done (h2, l2)
         ∧ tail l2 = Some (new_node h1)
         ∧ h2 !! new_node h1 = Some {| next := None; value := v |})
  ∧ ('(h, l) ← append_all ∅ empty_list [5; 10; 20; 40];
     Done (walk_and_print_list 4 h (head l) print_node,
           print_node h (head l), print_node h (tail l)))
    = Done (Some (Done [5; 10; 20; 40]), Done 5, Done 40).
Proof.
  assert (∀ h0, list_inv h0 empty_list []) as Hempty by (by constructor).
  split; [|split].
  - intros h0 vs Hne.
    destruct (append_all_inv vs _ _ _ (Hempty h0)) as (h & l & ns & Hrun & [Hch _] & Hvals).
    simpl in Hch. exists h, l. split; [done|]. intros fuel Hfuel.
    destruct ns as [|[a v] ns]; [by subst vs|].
    pose proof (chain_head _ _ _ _ _ Hch) as Hhd. rewrite Hhd in *.
    rewrite <- Hvals. apply (walk_chain _ _ ((a, v) :: ns)).
    + done.
    + by eapply chain_print.
    + rewrite <- Hvals, length_fmap in Hfuel. done.
  - intros h0 vs v.
    destruct (append_all_inv vs _ _ _ (Hempty h0)) as (h1 & l1 & ns & Hrun & Hinv & _).
    destruct (push_node_inv _ _ _ v Hinv) as (h2 & l2 & Hpush & _ & Htl & Hnode).
    exists h1, l1, h2, l2. rewrite (append_all_snoc _ _ _ _ _ _ Hrun). done.
  - reflexivity.
Qed.

Lemma append_traverse_witness :
  [5; 10; 20; 40] ≠ ([] : list Z)
  ∧ ∃ h l,
      append_all ∅ empty_list [5; 10; 20; 40] = Done (h, l)
      ∧ ∀ fuel, (length [5; 10; 20; 40] ≤ fuel)%nat →
          walk_and_print_list fuel h (head l) print_node
          = Some (Done [5; 10; 20; 40]).
Proof.
  assert ([5; 10; 20; 40] ≠ ([] : list Z)) as H by discriminate.
  split; [exact H|]. exact (proj1 append_traverse ∅ [5; 10; 20; 40] H).
Defined.

(** C4 as stated fails on the empty sequence of appends: the list is
    still empty, its head is absent, and no traversal from it delivers
    the (empty) sequence of values. *)
Lemma traverse_no_appends :
  append_all ∅ empty_list [] = Done (∅, empty_list)
  ∧ (∀ fuel, walk_and_print_list fuel ∅ (head empty_list) print_node
             ≠ Some (Done []))
  ∧ walk_and_print_list 1 ∅ (head empty_list) print_node = Some Fault.
Proof.
  split; [reflexivity|]. split; [|reflexivity].
  intros [|fuel]; simpl; discriminate.
Qed.

(** C5: append allocates one node that was not allocated before, with an
    absent next link and the given value.  On a list with an absent head
    the node becomes head; on a list with a head the next link of the
    current tail is set to the node; in both cases the node becomes the
    tail, and nothing else in the heap changes. *)
Theorem push_node_spec :
  (∀ h l v,
     head l = None →
     h !! new_node h = None
     ∧ push_node h l v
       = Done (<[new_node h := {| next := None; value := v |}]> h,
               {| head := Some (new_node h); tail := Some (new_node h) |}))
  ∧ (∀ h l ns v hd,
       list_inv h l ns →
       head l = Some hd →
       ∃ t tv,
         tail l = Some t
         ∧ h !! t = Some {| next := None; value := tv |}
         ∧ h !! new_node h = None
         ∧ t ≠ new_node h
         ∧ push_node h l v
           = Done (<[t := {| next := Some (new_node h); value := tv |}]>
                     (<[new_node h := {| next := None; value := v |}]> h),
                   {| head := Some hd; tail := Some (new_node h) |})).
Proof.
  split.
  - intros h l v Hhd. split; [apply new_node_fresh|by apply push_node_empty].
  - intros h l ns v hd Hinv Hhd.
    destruct (list_inv_tail _ _ _ _ Hinv Hhd) as (t & tv & Htl & Ht).
    exists t, tv. split; [done|]. split; [done|].
    split; [apply new_node_fresh|]. split.
    + intros ->. by rewrite new_node_fresh in Ht.
    + by rewrite (push_node_tail _ _ _ _ _ _ Hhd Htl Ht).
Qed.

Lemma one_list_inv : list_inv one_heap one_list [(1%positive, 5)].
Proof.
  constructor; simpl; [|reflexivity].
  split; [reflexivity|]. exists None. split; reflexivity.
Defined.

Lemma push_node_spec_witness :
  (head empty_list = None
   ∧ (∅ : nodes) !! new_node ∅ = None
   ∧ push_node ∅ empty_list 5
     = Done (<[new_node ∅ := {| next := None; value := 5 |}]> ∅,
             {| head := Some (new_node ∅); tail := Some (new_node ∅) |}))
  ∧ (head one_list = Some 1%positive
     ∧ ∃ t tv,
         tail one_list = Some t
         ∧ one_heap !! t = Some {| next := None; value := tv |}
         ∧ one_heap !! new_node one_heap = None
         ∧ t ≠ new_node one_heap
         ∧ push_node one_heap one_list 10
           = Done (<[t := {| next := Some (new_node one_heap); value := tv |}]>
                     (<[new_node one_heap := {| next := None; value := 10 |}]>
                        one_heap),
                   {| head := Some 1%positive;
                      tail := Some (new_node one_heap) |})).
Proof.
  split.
  - split; [reflexivity|].
    exact (proj1 push_node_spec ∅ empty_list 5 eq_refl).
  - split; [reflexivity|].
    exact (proj2 push_node_spec one_heap one_list [(1%positive, 5)] 10
             1%positive one_list_inv eq_refl).
Defined.

(** C9, as the code has it: the empty list satisfies the invariant in
    every heap, and append
    on a list that satisfies it returns a list that satisfies it, with one
    more node.  Under the invariant: an absent head comes with an absent
    tail and no nodes; the next link of the tail node is absent; following
    next links from head passes through exactly the [length] nodes of the
    list, all distinct (no cycle); the last of them is tail, reached after
    [length - 1] links, and the link after it, the [length]-th, is
    absent. *)
Theorem list_invariants :
  (∀ h, list_inv h empty_list [])
  ∧ (∀ h l ns v,
       list_inv h l ns →
       ∃ h' l',
         push_node h l v = Done (h', l')
         ∧ list_inv h' l' (ns ++ [(new_node h, v)]))
  ∧ (∀ h l ns,
       list_inv h l ns →
       (head l = None → tail l = None ∧ ns = [])
       ∧ (∀ t, tail l = Some t → ∃ tn, h !! t = Some tn ∧ next tn = None)
       ∧ NoDup ns.*1
       ∧ (∀ (k : nat) a, ns.*1 !! k = Some a ↔ hop h k (head l) = Some a)
       ∧ hop h (length ns - 1) (head l) = tail l
       ∧ hop h (length ns) (head l) = None).
Proof.
  split; [|split].
  - intros h. by constructor.
  - intros h l ns v Hinv.
    destruct (push_node_inv _ _ _ v Hinv) as (h' & l' & Hpush & Hinv' & _).
    by exists h', l'.
  - intros h l ns Hinv. pose proof Hinv as [Hch Htl].
    split; [|split; [|split; [|split; [|split]]]].
    + intros Hhd. rewrite Hhd in Hch.
      destruct ns as [|[a v] ns]; [by rewrite Htl|].
      by destruct Hch as [? _].
    + intros t Ht. destruct (head l) as [hd|] eqn:Hhd.
      * destruct (list_inv_tail _ _ _ _ Hinv Hhd) as (t' & tv & Ht' & Hnode).
        rewrite Ht in Ht'. injection Ht' as <-. by eexists.
      * destruct ns as [|[a v] ns]; [by rewrite Ht in Htl|].
        by destruct Hch as [? _].
    + by eapply chain_nodup.
    + intros k a. split; [by apply hop_chain|by apply hop_chain_inv].
    + destruct ns as [|[t tv] ns _] using rev_ind.
      * simpl in *. by rewrite Hch, Htl.
      * rewrite fmap_app in Htl. simpl in Htl. rewrite last_snoc in Htl.
        rewrite Htl. apply (hop_chain _ _ _ _ _ Hch).
        rewrite fmap_app, length_app. simpl.
        apply list_lookup_middle. rewrite length_fmap. lia.
    + by apply hop_chain_end.
Qed.

Lemma list_invariants_witness :
  (∃ h' l',
     push_node one_heap one_list 10 = Done (h', l')
     ∧ list_inv h' l' ([(1%positive, 5)] ++ [(new_node one_heap, 10)]))
  ∧ ((head one_list = None → tail one_list = None ∧ [(1%positive, 5)] = [])
     ∧ (∀ t, tail one_list = Some t →
          ∃ tn, one_heap !! t = Some tn ∧ next tn = None)
     ∧ NoDup [(1%positive, 5)].*1
     ∧ (∀ (k : nat) a, [(1%positive, 5)].*1 !! k = Some a
                       ↔ hop one_heap k (head one_list) = Some a)
     ∧ hop one_heap (length [(1%positive, 5)] - 1) (head one_list)
       = tail one_list
     ∧ hop one_heap (length [(1%positive, 5)]) (head one_list) = None).
Proof.
  destruct list_invariants as (_ & Hpush & Hinv).
  split.
  - exact (Hpush one_heap one_list [(1%positive, 5)] 10 one_list_inv).
  - exact (Hinv one_heap one_list [(1%positive, 5)] one_list_inv).
Defined.

(** C9 as stated fails on every non-empty list: after one append the
    list has length 1 and head is already tail, no hop away; one hop from
    head leads to the absent end, not to tail. *)
Lemma tail_before_length_hops :
  push_node ∅ empty_list 5 = Done (one_heap, one_list)
  ∧ list_inv one_heap one_list [(1%positive, 5)]
  ∧ length [(1%positive, 5)] = 1%nat
  ∧ hop one_heap 0 (head one_list) = tail one_list
  ∧ hop one_heap 1 (head one_list) = None
  ∧ hop one_heap 1 (head one_list) ≠ tail one_list.
Proof.
  split; [reflexivity|]. split; [exact one_list_inv|].
  split; [reflexivity|]. split; [reflexivity|]. split; [reflexivity|].
  discriminate.
Qed.

(** C10: the traversal needs a present start node.  From the absent
    pointer no run of it returns a result, whatever the visitor: with any
    fuel to run at all it faults.  From a present node it calls the
    visitor on the nodes of the chain from that node, in chain order;
    these are exactly the nodes reachable from it, each occurs once, and
    there is at least one. *)
Theorem walk_domain :
  (∀ (A : Type) fuel h (nfn : NodeFn A) r,
     walk_and_print_list fuel h None nfn ≠ Some (Done r))
  ∧ (∀ (A : Type) fuel h (nfn : NodeFn A),
       walk_and_print_list (S fuel) h None nfn = Some Fault)
  ∧ (∀ (A : Type) h p ns (nfn : NodeFn A) outs,
       chain h (Some p) ns →
       Forall2 (λ n o, nfn h (Some n.1) = Done o) ns outs →
       (∀ fuel, (length ns ≤ fuel)%nat →
          walk_and_print_list fuel h (Some p) nfn = Some (Done outs))
       ∧ length outs = length ns
       ∧ (1 ≤ length outs)%nat
       ∧ NoDup ns.*1
       ∧ (∀ (k : nat) a, hop h k (Some p) = Some a ↔ ns.*1 !! k = Some a)).
Proof.
  split; [|split].
  - intros A [|fuel] h nfn r; [done|]. by rewrite walk_null.
  - intros A fuel h nfn. apply walk_null.
  - intros A h p ns nfn outs Hch Hall.
    pose proof (Forall2_length _ _ _ Hall) as Hlen.
    split; [|split; [|split; [|split]]].
    + intros fuel Hfuel. by apply (walk_chain _ _ ns).
    + done.
    + destruct ns; [done|]. rewrite <- Hlen. simpl. lia.
    + by eapply chain_nodup.
    + intros k a. split; [by apply hop_chain_inv|by apply hop_chain].
Qed.

Lemma walk_domain_witness :
  chain one_heap (Some 1%positive) [(1%positive, 5)]
  ∧ Forall2 (λ n o, print_node one_heap (Some n.1) = Done o)
            [(1%positive, 5)] [5]
  ∧ (∀ fuel, (length [(1%positive, 5)] ≤ fuel)%nat →
       walk_and_print_list fuel one_heap (Some 1%positive) print_node
       = Some (Done [5]))
  ∧ length [5] = length [(1%positive, 5)]
  ∧ (1 ≤ length [5])%nat
  ∧ NoDup [(1%positive, 5)].*1
  ∧ (∀ (k : nat) a, hop one_heap k (Some 1%positive) = Some a
                    ↔ [(1%positive, 5)].*1 !! k = Some a).
Proof.
  assert (chain one_heap (Some 1%positive) [(1%positive, 5)]) as H0.
  { split; [reflexivity|]. exists None. split; reflexivity. }
  assert (Forall2 (λ n o, print_node one_heap (Some n.1) = Done o)
                  [(1%positive, 5)] [5]) as H1.
  { repeat constructor. }
  split; [exact H0|]. split; [exact H1|].
  exact (proj2 (proj2 walk_domain) Z one_heap 1%positive [(1%positive, 5)]
           print_node [5] H0 H1).
Defined.

End LinkedListFacts.

(** ** More on the dynamic array *)

Module DynArrMore.
Import DynArr DynArrFacts.

Lemma set_count_id array : set_count array (count array) = array.
Proof. by destruct array. Qed.

(** What [k] pops deliver on an array of [elems]. *)
Lemma pop_all_results : ∀ (k : nat) m array elems popped,
  repr m array elems →
  Z.of_nat (length popped) = size array →
  ∃ array',
    pop_all m array k popped
    = Done (((λ e, (1, e)) <$> reverse (drop (length elems - k) elems))
              ++ replicate (k - length elems)
                   (0, default popped (head elems)),
            array')
    ∧ repr m array' (take (length elems - k) elems)
    ∧ items array' = items array
    ∧ cap array' = cap array.
Proof.
  induction k as [|k IH]; intros m array elems popped R Hout.
  - exists array. simpl. rewrite Nat.sub_0_r, drop_all, take_ge by lia. done.
  - pose proof (repr_count _ _ _ R) as Hcnt.
    destruct elems as [|e elems' _] using rev_ind.
    + simpl in Hcnt. simpl. unfold pop_dyn_array at 1.
      rewrite bool_decide_eq_true_2 by done. simpl.
      destruct (IH m array [] popped R Hout) as (array' & Hrun & R' & Hit & Hcap).
      simpl in Hrun. rewrite Nat.sub_0_r in Hrun. rewrite Hrun. simpl.
      exists array'. done.
    + destruct (pop_last _ _ _ _ popped R) as [Hpop R1]; [lia|].
      rewrite drop_ge, app_nil_r in Hpop by lia.
      assert (Z.of_nat (length e) = size array) as He.
      { pose proof (repr_elems _ _ _ R) as Hall.
        rewrite Forall_app, Forall_singleton in Hall. tauto. }
      destruct (IH m _ elems' e R1 He) as (array' & Hrun & R' & Hit & Hcap).
      exists array'. simpl. rewrite Hpop. simpl. rewrite Hrun. simpl.
      rewrite length_app. simpl.
      replace (length elems' + 1 - S k)%nat with (length elems' - k)%nat by lia.
      rewrite drop_app_le, take_app_le by lia.
      rewrite reverse_app. simpl.
      replace (default popped (head (elems' ++ [e])))
        with (default e (head elems')) by (by destruct elems').
      replace (S k - (length elems' + 1))%nat with (k - length elems')%nat by lia.
      done.
Qed.

(** X1: [k] pops on a well-formed array of [n] elements, into a buffer of
    [size] bytes: the first [min k n] calls return 1 and deliver the last
    elements, newest first; every further call returns 0 and leaves the
    buffer as the last successful call (or the caller) left it.  The
    length ends at [n - min k n] and never wraps below zero; the storage
    pointer and the capacity stay, and the elements that were not popped
    are still read at their indices. *)
Theorem pop_run m array elems popped (k : nat) :
  repr m array elems →
  Z.of_nat (length popped) = size array →
  ∃ array',
    pop_all m array k popped
    = Done (((λ e, (1, e)) <$> reverse (drop (length elems - k) elems))
              ++ replicate (k - length elems)
                   (0, default popped (head elems)),
            array')
    ∧ count array' = Z.of_nat (length elems - k)
    ∧ items array' = items array
    ∧ cap array' = cap array
    ∧ (∀ (i : nat) e, take (length elems - k) elems !! i = Some e →
         element_at m array' (Z.of_nat i) = Done e).
Proof.
  intros R Hout.
  destruct (pop_all_results k _ _ _ _ R Hout) as (array' & Hrun & R' & Hit & Hcap).
  exists array'. split; [done|]. split.
  - rewrite (repr_count _ _ _ R'), length_take. lia.
  - split; [done|]. split; [done|].
    intros i e Hi. by apply (element_at_spec _ _ _ _ _ R').
Qed.

Lemma pop_run_witness :
  Z.of_nat (length [None; None : cell]) = size full_array
  ∧ ∃ array',
      pop_all full_mem full_array 3 [None; None]
      = Done ([(1, e2); (1, e1); (0, e1)], array')
      ∧ count array' = 0
      ∧ items array' = items full_array
      ∧ cap array' = cap full_array
      ∧ (∀ (i : nat) e, take (length [e1; e2] - 3) [e1; e2] !! i = Some e →
           element_at full_mem array' (Z.of_nat i) = Done e).
Proof.
  split; [reflexivity|].
  exact (pop_run full_mem full_array [e1; e2] [None; None] 3
           full_array_repr eq_refl).
Defined.

(** X2: pushes followed by as many pops undo each other: on a well-formed
    array, after pushing [vs] the pops return 1 each and deliver [vs]
    newest first, the length is back to what it was and the old
    elements are read at their indices.  The storage byte size needed for the pushes is
    assumed to be a [size_t] value. *)
Theorem push_pop_lifo m array elems vs popped :
  repr m array elems →
  Forall (λ v : buffer, Z.of_nat (length v) = size array) vs →
  (count array + Z.of_nat (length vs)) * 2 ≤ SIZE_MAX →
  (count array + Z.of_nat (length vs)) * 2 * size array ≤ SIZE_MAX →
  Z.of_nat (length popped) = size array →
  ∃ m' array' array'',
    push_all m array vs = Done (m', array')
    ∧ pop_all m' array' (length vs) popped
      = Done ((λ v, (1, v)) <$> reverse vs, array'')
    ∧ count array'' = count array
    ∧ (∀ (i : nat) e, elems !! i = Some e →
         element_at m' array'' (Z.of_nat i) = Done e).
Proof.
  intros R Hall Hc Hb Hout.
  destruct (push_all_spec vs _ _ _ R Hall Hc Hb)
    as (m' & array' & Hrun & R' & Hsz & _).
  destruct (pop_all_results (length vs) _ _ _ popped R')
    as (array'' & Hpops & R'' & _ & _); [lia|].
  rewrite length_app in Hpops, R''.
  replace (length elems + length vs - length vs)%nat with (length elems) in *
    by lia.
  rewrite drop_app_length in Hpops. rewrite take_app_length in R''.
  replace (length vs - (length elems + length vs))%nat with 0%nat in Hpops by lia.
  simpl in Hpops. rewrite app_nil_r in Hpops.
  exists m', array', array''. split; [done|]. split; [done|]. split.
  - rewrite (repr_count _ _ _ R''), (repr_count _ _ _ R). done.
  - intros i e Hi. by apply (element_at_spec _ _ _ _ _ R'').
Qed.

Lemma push_pop_lifo_witness :
  Forall (λ v : buffer, Z.of_nat (length v) = size full_array) [e3; e1]
  ∧ (count full_array + Z.of_nat (length [e3; e1])) * 2 ≤ SIZE_MAX
  ∧ (count full_array + Z.of_nat (length [e3; e1])) * 2 * size full_array
    ≤ SIZE_MAX
  ∧ Z.of_nat (length [None; None : cell]) = size full_array
  ∧ ∃ m' array' array'',
      push_all full_mem full_array [e3; e1] = Done (m', array')
      ∧ pop_all m' array' (length [e3; e1]) [None; None]
        = Done ((λ v, (1, v)) <$> reverse [e3; e1], array'')
      ∧ count array'' = count full_array
      ∧ (∀ (i : nat) e, [e1; e2] !! i = Some e →
           element_at m' array'' (Z.of_nat i) = Done e).
Proof.
  assert (Forall (λ v : buffer, Z.of_nat (length v) = size full_array) [e3; e1])
    as H0 by (repeat constructor).
  assert ((count full_array + Z.of_nat (length [e3; e1])) * 2 ≤ SIZE_MAX)
    as H1 by (vm_compute; congruence).
  assert ((count full_array + Z.of_nat (length [e3; e1])) * 2 * size full_array
          ≤ SIZE_MAX) as H2 by (vm_compute; congruence).
  split; [exact H0|]. split; [exact H1|]. split; [exact H2|].
  split; [reflexivity|].
  exact (push_pop_lifo full_mem full_array [e1; e2] [e3; e1] [None; None]
           full_array_repr H0 H1 H2 eq_refl).
Defined.

Lemma memcpy_done (m : mem) dst doff src soff n (m' : mem) :
  memcpy m dst doff src soff n = Done m' →
  ∃ data, load m src soff n = Done data ∧ store m dst doff data = Done m'.
Proof.
  unfold memcpy. case_bool_decide; [done|]. intros Hc.
  by apply bind_done in Hc.
Qed.

(** X3: a push into an array that is not full works in place, for every
    element size: no block is allocated or freed, the storage pointer and
    the capacity stay, every other block of the heap keeps its content,
    the elements held stay readable at their indices, and the first
    [size] bytes of the value land at index [length]. *)
Theorem push_in_place m array elems v :
  repr m array elems →
  count array < cap array →
  size array ≤ Z.of_nat (length v) →
  ∃ m' array',
    push_dyn_array m array v = Done (m', array')
    ∧ items array' = items array
    ∧ cap array' = cap array
    ∧ count array' = count array + 1
    ∧ dom m' = dom m
    ∧ (∀ l, items array ≠ Some l → m' !! l = m !! l)
    ∧ (∀ (i : nat) e, elems !! i = Some e →
         element_at m' array' (Z.of_nat i) = Done e)
    ∧ element_at m' array' (count array)
      = Done (take (Z.to_nat (size array)) v).
Proof.
  intros R Hroom Hv.
  destruct (push_room _ _ _ _ R Hroom Hv) as (m' & Hstore & Hpush & R' & Hdom).
  exists m', (set_count array (count array + 1)).
  repeat (split; [done|]). split; [|split].
  - intros l Hl. apply store_done in Hstore as (l0 & b & b' & Hit & _ & _ & ->).
    rewrite lookup_insert_ne; [done|]. congruence.
  - intros i e Hi. apply (element_at_spec _ _ _ _ _ R').
    by apply lookup_app_l_Some.
  - rewrite (repr_count _ _ _ R). apply (element_at_spec _ _ _ _ _ R').
    by apply list_lookup_middle.
Qed.

Lemma room_array_repr : repr room_mem room_array [e1].
Proof.
  constructor; try (vm_compute; congruence).
  - repeat constructor.
  - exists 1%positive, [None; None]. repeat split; reflexivity.
Defined.

Lemma push_in_place_witness :
  count room_array < cap room_array
  ∧ size room_array ≤ Z.of_nat (length e2)
  ∧ ∃ m' array',
      push_dyn_array room_mem room_array e2 = Done (m', array')
      ∧ items array' = items room_array
      ∧ cap array' = cap room_array
      ∧ count array' = count room_array + 1
      ∧ dom m' = dom room_mem
      ∧ (∀ l, items room_array ≠ Some l → m' !! l = room_mem !! l)
      ∧ (∀ (i : nat) e, [e1] !! i = Some e →
           element_at m' array' (Z.of_nat i) = Done e)
      ∧ element_at m' array' (count room_array)
        = Done (take (Z.to_nat (size room_array)) e2).
Proof.
  assert (count room_array < cap room_array) as H0 by (simpl; lia).
  assert (size room_array ≤ Z.of_nat (length e2)) as H1 by (simpl; lia).
  split; [exact H0|]. split; [exact H1|].
  exact (push_in_place room_mem room_array [e1] e2 room_array_repr H0 H1).
Defined.

(** X4: a pop followed by a push replaces the last element and nothing
    else, with no bound on the sizes: the pop delivers the old last
    element, the array ends with the length, capacity and storage pointer
    it had, no block is allocated or freed, and it holds the old elements
    with the pushed value in the last place. *)
Theorem pop_push_replaces_last m array elems popped v :
  repr m array elems →
  0 < count array →
  Z.of_nat (length popped) = size array →
  Z.of_nat (length v) = size array →
  ∃ elems' e m',
    elems = elems' ++ [e]
    ∧ pop_dyn_array m array popped
      = Done (1, set_count array (count array - 1), e)
    ∧ push_dyn_array m (set_count array (count array - 1)) v
      = Done (m', array)
    ∧ dom m' = dom m
    ∧ (∀ (i : nat) x, (elems' ++ [v]) !! i = Some x →
         element_at m' array (Z.of_nat i) = Done x).
Proof.
  intros R Hpos Hout Hv.
  destruct (repr_last _ _ _ R Hpos) as (elems' & e & -> & _).
  destruct (pop_last _ _ _ _ popped R) as [Hpop R1]; [lia|].
  rewrite drop_ge, app_nil_r in Hpop by lia.
  pose proof (repr_count_cap _ _ _ R) as Hcc.
  destruct (push_room _ _ _ v R1) as (m' & _ & Hpush & R' & Hdom);
    [simpl; lia|simpl; lia|].
  simpl in Hpush, R'. rewrite take_ge in R' by lia.
  replace (count array - 1 + 1) with (count array) in Hpush, R' by lia.
  assert (set_count (set_count array (count array - 1)) (count array) = array)
    as Heq by (by destruct array).
  rewrite Heq in Hpush, R'.
  exists elems', e, m'. repeat (split; [done|]).
  intros i x Hi. by apply (element_at_spec _ _ _ _ _ R').
Qed.

Lemma pop_push_replaces_last_witness :
  0 < count full_array
  ∧ Z.of_nat (length [None; None : cell]) = size full_array
  ∧ Z.of_nat (length e3) = size full_array
  ∧ ∃ elems' e m',
      [e1; e2] = elems' ++ [e]
      ∧ pop_dyn_array full_mem full_array [None; None]
        = Done (1, set_count full_array (count full_array - 1), e)
      ∧ push_dyn_array full_mem (set_count full_array (count full_array - 1)) e3
        = Done (m', full_array)
      ∧ dom m' = dom full_mem
      ∧ (∀ (i : nat) x, (elems' ++ [e3]) !! i = Some x →
           element_at m' full_array (Z.of_nat i) = Done x).
Proof.
  assert (0 < count full_array) as H0 by (simpl; lia).
  split; [exact H0|]. split; [reflexivity|]. split; [reflexivity|].
  exact (pop_push_replaces_last full_mem full_array [e1; e2] [None; None] e3
           full_array_repr H0 eq_refl eq_refl).
Defined.

(** X5: no push leaks or touches foreign memory.  After a push the heap
    has the blocks it had, except that the array's storage block may have
    been replaced by one new block; every block other than the old and the
    new storage keeps its content. *)
Theorem push_frame m array elems v :
  repr m array elems →
  count array < cap array ∨ fits array →
  Z.of_nat (length v) = size array →
  ∃ m' array' l l',
    push_dyn_array m array v = Done (m', array')
    ∧ items array = Some l
    ∧ items array' = Some l'
    ∧ (l' = l ∨ l' ∉ dom m)
    ∧ dom m' = {[l']} ∪ (dom m ∖ {[l]})
    ∧ (∀ k, k ≠ l → k ≠ l' → m' !! k = m !! k).
Proof.
  intros R Hfit Hv.
  destruct (repr_items _ _ _ R) as (l & rest & Hit & Hl & _).
  assert (l ∈ dom m) as Hin by (apply elem_of_dom; eauto).
  destruct (decide (count array < cap array)) as [Hroom|Hfull].
  - destruct (push_room _ _ _ v R Hroom) as (m' & Hstore & Hpush & _ & Hdom);
      [lia|].
    exists m', (set_count array (count array + 1)), l, l.
    split; [done|]. split; [done|]. split; [done|]. split; [by left|]. split.
    + rewrite Hdom. apply set_eq. intros k.
      rewrite elem_of_union, elem_of_difference, elem_of_singleton.
      destruct (decide (k = l)) as [->|Hne]; [tauto|]. tauto.
    + intros k Hk _.
      apply store_done in Hstore as (l0 & b & b' & Hit' & _ & _ & ->).
      rewrite Hit in Hit'. injection Hit' as <-.
      by rewrite lookup_insert_ne.
  - pose proof (repr_count_cap _ _ _ R) as Hcc.
    destruct Hfit as [?|Hfit]; [lia|].
    destruct (push_full _ _ _ _ R ltac:(lia) Hfit Hv)
      as (l0 & pad & m2 & m' & Hit0 & _ & Hfresh & Hcpy & _ & _ & _ & _
          & Hstore & Hpush & _ & _).
    simpl in *. rewrite Hit in Hit0. injection Hit0 as <-.
    set (l' := fresh (dom m)) in *.
    apply memcpy_done in Hcpy as (data & _ & Hcpy).
    apply store_done in Hcpy as (? & b & b' & [= <-] & _ & _ & ->).
    apply store_done in Hstore as (? & c & c' & [= <-] & _ & _ & ->).
    unfold malloc. simpl. fold l'.
    eexists _, _, l, l'. split; [exact Hpush|].
    split; [done|]. split; [done|]. split.
    + right. by apply not_elem_of_dom.
    + split.
      * rewrite dom_insert_L, dom_delete_L, !dom_insert_L.
        apply set_eq. intros k.
        rewrite !elem_of_union, !elem_of_difference, !elem_of_union,
          !elem_of_singleton.
        assert (l' ≠ l) by (intros ->; by apply not_elem_of_dom in Hfresh).
        intuition congruence.
      * intros k Hk Hk'.
        by rewrite lookup_insert_ne, lookup_delete_ne, !lookup_insert_ne.
Qed.

Lemma push_frame_witness :
  (count full_array < cap full_array ∨ fits full_array)
  ∧ Z.of_nat (length e3) = size full_array
  ∧ ∃ m' array' l l',
      push_dyn_array full_mem full_array e3 = Done (m', array')
      ∧ items full_array = Some l
      ∧ items array' = Some l'
      ∧ (l' = l ∨ l' ∉ dom full_mem)
      ∧ dom m' = {[l']} ∪ (dom full_mem ∖ {[l]})
      ∧ (∀ k, k ≠ l → k ≠ l' → m' !! k = full_mem !! k).
Proof.
  assert (count full_array < cap full_array ∨ fits full_array) as H0.
  { right. split; vm_compute; congruence. }
  split; [exact H0|]. split; [reflexivity|].
  exact (push_frame full_mem full_array [e1; e2] e3 full_array_repr H0 eq_refl).
Defined.

Lemma push_all_cap_law vs : ∀ m array elems,
  repr m array elems →
  cap_law array →
  Forall (λ v : buffer, Z.of_nat (length v) = size array) vs →
  (count array + Z.of_nat (length vs)) * 2 ≤ SIZE_MAX →
  (count array + Z.of_nat (length vs)) * 2 * size array ≤ SIZE_MAX →
  ∃ m' array',
    push_all m array vs = Done (m', array')
    ∧ repr m' array' (elems ++ vs)
    ∧ cap_law array'.
Proof.
  induction vs as [|v vs IH]; intros m array elems R Hlaw Hall Hc Hb.
  - exists m, array. rewrite app_nil_r. done.
  - apply Forall_cons in Hall as [Hv Hall]. simpl in Hc, Hb.
    pose proof (repr_size _ _ _ R) as Hsz.
    pose proof (repr_count_cap _ _ _ R) as Hcc.
    pose proof (repr_count _ _ _ R) as Hcnt.
    pose proof (repr_cap_pos _ _ _ R) as Hpos.
    destruct (push_spec m array elems v R)
      as (m1 & array1 & Hpush & R1 & Hc1 & Hs1 & Hcap1).
    { lia. }
    { destruct (decide (count array < cap array)); [by left|right].
      unfold fits. split; nia. }
    rewrite take_ge in R1 by lia.
    assert (cap_law array1) as Hlaw1.
    { destruct Hlaw as [[j Hj] Hhalf]. unfold cap_law. rewrite Hcap1, Hc1.
      case_bool_decide.
      - split; [|right; lia]. exists (S j). rewrite Hj.
        rewrite (Nat2Z.inj_succ (S j)), Z.pow_succ_r by lia. lia.
      - split; [by exists j|]. lia. }
    destruct (IH m1 array1 (elems ++ [v]) R1 Hlaw1)
      as (m' & array' & Hrun & R' & Hlaw').
    { by rewrite Hs1. }
    { lia. }
    { rewrite Hs1. nia. }
    exists m', array'. simpl. rewrite Hpush. simpl.
    rewrite <- app_assoc in R'. done.
Qed.

(** X6: the growth policy in numbers.  After [k] pushes into a new array
    the capacity is a power of two, at least 2 and at least [k], and once
    it is above 2 it is less than [2 * k]: more than half of the storage
    is in use.  (The byte size is assumed to stay a [size_t] value.) *)
Theorem capacity_law m0 n vs :
  0 ≤ n →
  Forall (λ v : buffer, Z.of_nat (length v) = n) vs →
  Z.max 1 n * 2 * Z.max 1 (Z.of_nat (length vs)) ≤ SIZE_MAX →
  ∃ m array (j : nat),
    push_all (new_dyn_array m0 n).1 (new_dyn_array m0 n).2 vs = Done (m, array)
    ∧ cap array = 2 ^ Z.of_nat (S j)
    ∧ Z.of_nat (length vs) ≤ cap array
    ∧ (cap array = 2 ∨ cap array < 2 * Z.of_nat (length vs)).
Proof.
  intros Hn Hall Hb.
  pose proof (Z.le_max_l 1 n). pose proof (Z.le_max_r 1 n).
  pose proof (Z.le_max_l 1 (Z.of_nat (length vs))).
  pose proof (Z.le_max_r 1 (Z.of_nat (length vs))).
  assert (repr (new_dyn_array m0 n).1 (new_dyn_array m0 n).2 []) as R0.
  { apply new_dyn_array_repr; [lia|nia]. }
  destruct (push_all_cap_law vs _ _ _ R0) as (m & array & Hrun & R & [[j Hj] Hhalf]).
  - split; [by exists 0%nat|by left].
  - done.
  - simpl. nia.
  - simpl. nia.
  - simpl in R. exists m, array, j. split; [done|]. split; [done|].
    pose proof (repr_count _ _ _ R) as Hcnt.
    pose proof (repr_count_cap _ _ _ R). split; lia.
Qed.

Lemma capacity_law_witness :
  0 ≤ 2
  ∧ Forall (λ v : buffer, Z.of_nat (length v) = 2) [e1; e2; e3; e1; e2]
  ∧ Z.max 1 2 * 2 * Z.max 1 (Z.of_nat (length [e1; e2; e3; e1; e2])) ≤ SIZE_MAX
  ∧ ∃ m array (j : nat),
      push_all (new_dyn_array ∅ 2).1 (new_dyn_array ∅ 2).2 [e1; e2; e3; e1; e2]
      = Done (m, array)
      ∧ cap array = 2 ^ Z.of_nat (S j)
      ∧ Z.of_nat (length [e1; e2; e3; e1; e2]) ≤ cap array
      ∧ (cap array = 2
         ∨ cap array < 2 * Z.of_nat (length [e1; e2; e3; e1; e2])).
Proof.
  assert (0 ≤ 2) as H0 by lia.
  assert (Forall (λ v : buffer, Z.of_nat (length v) = 2) [e1; e2; e3; e1; e2])
    as H1 by (repeat constructor).
  assert (Z.max 1 2 * 2 * Z.max 1 (Z.of_nat (length [e1; e2; e3; e1; e2]))
          ≤ SIZE_MAX) as H2 by (vm_compute; discriminate).
  split; [exact H0|]. split; [exact H1|]. split; [exact H2|].
  exact (capacity_law ∅ 2 [e1; e2; e3; e1; e2] H0 H1 H2).
Defined.

(** A doubled size beyond [SIZE_MAX] wraps to less than the size. *)
Lemma double_wraps n :
  n ≤ SIZE_MAX → SIZE_MAX < n * 2 → 0 ≤ size_t (n * 2) < n.
Proof.
  intros Hmax Hover. pose proof (size_t_range (n * 2)).
  destruct (size_t_double n) as [?|?]; [unfold SIZE_MAX in *; lia|lia|lia].
Qed.

(** A store that does not fit into its block is a fault. *)
Lemma store_short (m : mem) l b off data :
  m !! l = Some b →
  Z.of_nat (length b) < off + Z.of_nat (length data) →
  store m (Some l) off data = Fault.
Proof.
  intros Hl Hlen. unfold store. rewrite Hl. unfold write_buf.
  rewrite bool_decide_eq_false_2; [done|]. lia.
Qed.

(** X7: the byte size of the first allocation is computed in [size_t] and
    not tested.  For an element size [n] with [2 * n] beyond [SIZE_MAX]
    the product wraps, the block has fewer than [n] bytes, and the first
    push, whatever the value, reads or writes outside an object. *)
Theorem new_overflow_faults m0 n v :
  n ≤ SIZE_MAX →
  SIZE_MAX < n * 2 →
  push_dyn_array (new_dyn_array m0 n).1 (new_dyn_array m0 n).2 v = Fault.
Proof.
  intros Hmax Hover.
  pose proof (double_wraps n Hmax Hover) as Hwrap.
  unfold new_dyn_array, malloc. simpl.
  unfold push_dyn_array. simpl.
  destruct (read_buf v 0 n) as [data|] eqn:Hrd; [|done]. simpl.
  apply read_buf_done in Hrd as (_ & _ & _ & Hdata).
  erewrite store_short; [done|apply lookup_insert_eq|].
  rewrite length_replicate, Z.mul_0_r, Hdata.
  replace (size_t 0) with 0 by done. lia.
Qed.

Lemma new_overflow_faults_witness :
  2 ^ 63 ≤ SIZE_MAX
  ∧ SIZE_MAX < 2 ^ 63 * 2
  ∧ push_dyn_array (new_dyn_array ∅ (2 ^ 63)).1 (new_dyn_array ∅ (2 ^ 63)).2 e1
    = Fault.
Proof.
  assert (2 ^ 63 ≤ SIZE_MAX) as H0 by (vm_compute; discriminate).
  assert (SIZE_MAX < 2 ^ 63 * 2) as H1 by reflexivity.
  split; [exact H0|]. split; [exact H1|].
  exact (new_overflow_faults ∅ (2 ^ 63) e1 H0 H1).
Defined.

(** X8: with no assumption on the sizes beyond the range of [size_t]: if
    a run of pushes into a new array of elements of at least one byte
    returns, the length is the number of pushes and every index below it
    reads the first [n] bytes of the value of that push.  A byte size
    that wraps around can make a run fault, never return wrong
    contents. *)
Theorem push_run_sound m0 n vs m array :
  0 < n →
  n ≤ SIZE_MAX →
  push_all (new_dyn_array m0 n).1 (new_dyn_array m0 n).2 vs = Done (m, array) →
  count array = Z.of_nat (length vs)
  ∧ (∀ (i : nat) v, vs !! i = Some v →
       element_at m array (Z.of_nat i) = Done (take (Z.to_nat n) v)).
Proof.
  intros Hn Hmax Hrun.
  destruct (decide (n * 2 ≤ SIZE_MAX)) as [Hfit|Hover].
  - assert (repr (new_dyn_array m0 n).1 (new_dyn_array m0 n).2 []) as R0.
    { apply new_dyn_array_repr; lia. }
    destruct (push_all_done vs _ _ _ _ _ R0 Hn Hrun) as [R _].
    simpl in R. split.
    + rewrite (repr_count _ _ _ R), length_fmap. done.
    + intros i v Hi. apply (element_at_spec _ _ _ _ _ R).
      by rewrite list_lookup_fmap, Hi.
  - destruct vs as [|v vs].
    + simpl in Hrun. injection Hrun as <- <-. done.
    + exfalso. pose proof (double_wraps n Hmax ltac:(lia)) as Hwrap.
      simpl in Hrun. apply bind_done in Hrun as ([m1 array1] & Hpush & _).
      unfold push_dyn_array in Hpush. simpl in Hpush.
      apply bind_done in Hpush as (data & Hrd & Hpush).
      apply bind_done in Hpush as (m' & Hst & _).
      apply read_buf_done in Hrd as (_ & _ & _ & Hdata).
      erewrite store_short in Hst; [done|apply lookup_insert_eq|].
      rewrite length_replicate, Z.mul_0_r, Hdata.
      replace (size_t 0) with 0 by done. lia.
Qed.

Lemma push_run_sound_witness :
  0 < 2
  ∧ 2 ≤ SIZE_MAX
  ∧ ∃ m array,
      push_all (new_dyn_array ∅ 2).1 (new_dyn_array ∅ 2).2 [e1; e2; e3]
      = Done (m, array)
      ∧ count array = Z.of_nat (length [e1; e2; e3])
      ∧ (∀ (i : nat) v, [e1; e2; e3] !! i = Some v →
           element_at m array (Z.of_nat i) = Done (take (Z.to_nat 2) v)).
Proof.
  assert (0 < 2) as H0 by lia.
  assert (2 ≤ SIZE_MAX) as H1 by (vm_compute; discriminate).
  split; [exact H0|]. split; [exact H1|].
  eexists _, _. split; [reflexivity|].
  eapply (push_run_sound ∅ 2 [e1; e2; e3]); [exact H0|exact H1|reflexivity].
Defined.

Lemma c_string_name (name : list byte) (rest : buffer) :
  "000"%byte ∉ name →
  c_string ((Some <$> name) ++ Some "000"%byte :: rest) = Done name.
Proof.
  intros Hnul. induction name as [|c name IH]; simpl; [done|].
  apply not_elem_of_cons in Hnul as [Hc Hnul].
  destruct (Byte.eqb c "000") eqn:Heq.
  - apply Byte.byte_dec_bl in Heq. congruence.
  - specialize (IH Hnul). unfold fmap in IH. by rewrite IH.
Qed.

Lemma user_bytes_length name id :
  user_ok name id → Z.of_nat (length (user_bytes name id)) = SIZEOF_USER.
Proof.
  intros (Hlen & _ & Hid). unfold user_bytes, NAME_LEN, ID_LEN, SIZEOF_USER in *.
  rewrite !length_app, length_fmap, length_replicate. lia.
Qed.

(** The fields read back from the bytes of a [User]. *)
Lemma user_fields_bytes name id :
  user_ok name id → user_fields (user_bytes name id) = Done (name, id).
Proof.
  intros (Hlen & Hnul & Hid). unfold user_fields, user_bytes.
  unfold NAME_LEN, ID_LEN in *.
  set (pad := replicate (Z.to_nat 50 - length name) (Some "000"%byte)).
  assert (length pad = (Z.to_nat 50 - length name)%nat) as Hpad
    by apply length_replicate.
  pose proof (read_buf_app [] ((Some <$> name) ++ pad) id) as Hname.
  rewrite app_nil_l in Hname. change (Z.of_nat (length [])) with 0 in Hname.
  rewrite <- app_assoc in Hname.
  replace (Z.of_nat (length ((Some <$> name) ++ pad))) with 50 in Hname
    by (rewrite length_app, length_fmap; lia).
  rewrite Hname. simpl.
  assert (∃ pad', pad = Some "000"%byte :: pad') as [pad' Hpad'].
  { destruct pad as [|c pad'] eqn:Hp; [simpl in Hpad; lia|].
    exists pad'. f_equal.
    assert (c ∈ pad) as Hin by (rewrite Hp; by left).
    unfold pad in Hin. by apply elem_of_replicate in Hin as [-> _]. }
  rewrite Hpad' at 1. rewrite (c_string_name name _ Hnul). simpl.
  pose proof (read_buf_app ((Some <$> name) ++ pad) id []) as Hrd.
  rewrite app_nil_r, <- app_assoc in Hrd.
  replace (Z.of_nat (length ((Some <$> name) ++ pad))) with 50 in Hrd
    by (rewrite length_app, length_fmap; lia).
  rewrite Hid in Hrd. by rewrite Hrd.
Qed.

(** The loop over an array of [User] records. *)
Lemma print_loop_users m array (us : list (list byte * buffer)) :
  repr m array ((λ u, user_bytes u.1 u.2) <$> us) →
  size array = SIZEOF_USER →
  Forall (λ u, user_ok u.1 u.2) us →
  ∀ n i : nat, (i + n)%nat = length us →
  print_loop m array n (Z.of_nat i)
  = Done (imap (λ j u, (Z.of_nat (i + j), u.1, u.2)) (drop i us)).
Proof.
  intros R Hsz Hok n. induction n as [|n IH]; intros i Hi.
  - simpl. by rewrite drop_ge by lia.
  - destruct (lookup_lt_is_Some_2 us i) as [u Hu]; [lia|].
    pose proof (repr_count _ _ _ R) as Hcnt. rewrite length_fmap in Hcnt.
    pose proof (repr_count_cap _ _ _ R). pose proof (repr_cap_max _ _ _ R).
    pose proof (element_at_spec _ _ _ i (user_bytes u.1 u.2) R) as Hel.
    rewrite list_lookup_fmap, Hu in Hel. specialize (Hel eq_refl).
    unfold element_at in Hel. rewrite Hsz in Hel.
    simpl. rewrite Hsz, Hel. simpl.
    rewrite user_fields_bytes by apply (Forall_lookup_1 _ _ _ _ Hok Hu).
    simpl. rewrite size_t_id by lia.
    replace (Z.of_nat i + 1) with (Z.of_nat (S i)) by lia.
    rewrite IH by lia. simpl.
    rewrite (drop_S _ _ _ Hu). simpl. rewrite Nat.add_0_r. do 2 f_equal.
    apply imap_ext. intros j x _. simpl. do 2 f_equal. lia.
Qed.


(** [user_ok] by evaluation. *)
Lemma user_ok_check (u : list byte * buffer) :
  (Z.of_nat (length u.1) <? NAME_LEN) = true →
  forallb (λ c, negb (Byte.eqb c "000")) u.1 = true →
  Z.of_nat (length u.2) = ID_LEN →
  user_ok u.1 u.2.
Proof.
  intros Hlen Hnul Hid. split; [by apply Z.ltb_lt|]. split; [|done].
  intros Hin. rewrite forallb_forall in Hnul.
  apply list_elem_of_In in Hin. apply Hnul in Hin. by vm_compute in Hin.
Defined.




Lemma grow_size m array m1 array1 :
  grow m array = Done (m1, array1) → size array1 = size array.
Proof.
  unfold grow, malloc. intros Hg.
  apply bind_done in Hg as (m2 & _ & Hg).
  apply bind_done in Hg as (m3 & _ & Hg). by injection Hg as <- <-.
Qed.

(** X10: neither function knows the size of the caller's object; both
    copy exactly [size] bytes.  A push from an object of fewer than
    [size] bytes reads past its end, in every state of the array; a pop
    from a non-empty well-formed array into an object of fewer than
    [size] bytes writes past its end.  Both are faults, not reported
    errors. *)
Theorem short_objects_fault :
  (∀ m array v,
     Z.of_nat (length v) < size array →
     push_dyn_array m array v = Fault)
  ∧ (∀ m array elems popped,
       repr m array elems →
       0 < count array →
       Z.of_nat (length popped) < size array →
       pop_dyn_array m array popped = Fault).
Proof.
  split.
  - intros m array v Hv. unfold push_dyn_array.
    assert (∀ array', size array' = size array →
              read_buf v 0 (size array') = Fault) as Hrd.
    { intros array' ->. unfold read_buf.
      rewrite bool_decide_eq_false_2; [done|]. lia. }
    case_bool_decide.
    + destruct (grow m array) as [[m1 array1]|] eqn:Hg; [|done]. simpl.
      by rewrite (Hrd array1 (grow_size _ _ _ _ Hg)).
    + simpl. by rewrite (Hrd array eq_refl).
  - intros m array elems popped R Hpos Hout.
    destruct (pop_dyn_array m array popped) as [r|] eqn:Hpop; [|done].
    apply pop_done_room in Hpop; [lia|apply (repr_size _ _ _ R)|lia].
Qed.

Lemma short_objects_fault_witness :
  (Z.of_nat (length [Some "a"%byte]) < size full_array
   ∧ push_dyn_array full_mem full_array [Some "a"%byte] = Fault)
  ∧ (0 < count full_array
     ∧ Z.of_nat (length [None : cell]) < size full_array
     ∧ pop_dyn_array full_mem full_array [None] = Fault).
Proof.
  assert (Z.of_nat (length [Some "a"%byte]) < size full_array) as H0
    by (simpl; lia).
  assert (0 < count full_array) as H1 by (simpl; lia).
  assert (Z.of_nat (length [None : cell]) < size full_array) as H2
    by (simpl; lia).
  split.
  - split; [exact H0|].
    exact (proj1 short_objects_fault full_mem full_array [Some "a"%byte] H0).
  - split; [exact H1|]. split; [exact H2|].
    exact (proj2 short_objects_fault full_mem full_array [e1; e2] [None]
             full_array_repr H1 H2).
Defined.

End DynArrMore.

(** ** More on the linked list *)

Module LinkedListMore.
Import LinkedList LinkedListFacts.

(** The traversal of a non-empty list from its head. *)
Lemma walk_list h l ns fuel :
  list_inv h l ns →
  ns ≠ [] →
  (length ns ≤ fuel)%nat →
  walk_and_print_list fuel h (head l) print_node = Some (Done ns.*2).
Proof.
  intros [Hch _] Hne Hfuel.
  destruct ns as [|[a v] ns]; [done|].
  pose proof (chain_head _ _ _ _ _ Hch) as Hhd. rewrite Hhd in *.
  apply (walk_chain _ _ ((a, v) :: ns)); [done|by eapply chain_print|done].
Qed.

(** A traversal that returns went along a chain that ends. *)
Lemma walk_done_chain {A : Type} h (nfn : NodeFn A) : ∀ fuel p outs,
  walk_and_print_list fuel h (Some p) nfn = Some (Done outs) →
  ∃ ns, chain h (Some p) ns
        ∧ Forall2 (λ n o, nfn h (Some n.1) = Done o) ns outs.
Proof.
  induction fuel as [|fuel IH]; intros p outs Hw; [done|].
  simpl in Hw.
  destruct (nfn h (Some p)) as [out|] eqn:Hout; [|done].
  destruct (h !! p) as [[nx v]|] eqn:Hp; [|done]. simpl in Hw.
  destruct nx as [q|].
  - destruct (walk_and_print_list fuel h (Some q) nfn) as [[rest|]|] eqn:Hrest;
      [|done|done].
    injection Hw as <-.
    destruct (IH _ _ Hrest) as (ns & Hch & Hall).
    exists ((p, v) :: ns). split.
    + simpl. split; [done|]. by exists (Some q).
    + by constructor.
  - injection Hw as <-. exists [(p, v)]. split.
    + simpl. split; [done|]. by exists None.
    + by repeat constructor.
Qed.

Lemma hop_null h (k : nat) : hop h k None = None.
Proof. by destruct k. Qed.

Lemma hop_add h : ∀ (a b : nat) p, hop h (a + b) p = hop h b (hop h a p).
Proof.
  induction a as [|a IH]; intros b p; simpl; [done|].
  destruct p as [l|]; [|by rewrite hop_null].
  destruct (h !! l) as [n|]; [by apply IH|by rewrite hop_null].
Qed.

Lemma hop_cycle h (k : nat) q :
  hop h (S k) (Some q) = Some q →
  ∀ m : nat, hop h (m * S k) (Some q) = Some q.
Proof.
  intros Hk m. induction m as [|m IH]; [done|].
  replace (S m * S k)%nat with (m * S k + S k)%nat by lia.
  by rewrite hop_add, IH.
Qed.

(** X11: appends to any well-formed list, empty or not, in any heap: the
    run returns, a list that had a head keeps it, and the traversal from
    head delivers the values the list held followed by the appended
    values, in order.  (The traversal needs a node to start from: old and
    new values together are not empty.) *)
Theorem append_any_list h l ns vs :
  list_inv h l ns →
  ns.*2 ++ vs ≠ [] →
  ∃ h' l',
    append_all h l vs = Done (h', l')
    ∧ (head l ≠ None → head l' = head l)
    ∧ ∀ fuel, (length ns + length vs ≤ fuel)%nat →
        walk_and_print_list fuel h' (head l') print_node
        = Some (Done (ns.*2 ++ vs)).
Proof.
  intros Hinv Hne.
  destruct (append_all_inv vs _ _ _ Hinv) as (h' & l' & ns' & Hrun & Hinv' & Hvals).
  exists h', l'. split; [done|]. split.
  - intros Hhd. destruct Hinv as [Hch _]. destruct Hinv' as [Hch' _].
    destruct ns as [|[a v] ns]; [done|].
    simpl in Hch, Hch'. destruct Hch as [-> _]. by destruct Hch' as [-> _].
  - intros fuel Hfuel. rewrite <- Hvals, <- fmap_app.
    apply (walk_list _ _ _ _ Hinv').
    + intros Heq. apply Hne. rewrite <- Hvals, <- fmap_app, Heq. done.
    + rewrite length_app. rewrite <- Hvals, length_fmap in Hfuel. done.
Qed.

Lemma append_any_list_witness :
  [(1%positive, 5)].*2 ++ [10; 20] ≠ []
  ∧ ∃ h' l',
      append_all one_heap one_list [10; 20] = Done (h', l')
      ∧ (head one_list ≠ None → head l' = head one_list)
      ∧ ∀ fuel, (length [(1%positive, 5)] + length [10; 20] ≤ fuel)%nat →
          walk_and_print_list fuel h' (head l') print_node
          = Some (Done ([(1%positive, 5)].*2 ++ [10; 20])).
Proof.
  assert ([(1%positive, 5)].*2 ++ [10; 20] ≠ []) as H by discriminate.
  split; [exact H|].
  exact (append_any_list one_heap one_list [(1%positive, 5)] [10; 20]
           one_list_inv H).
Defined.

(** X12: [some_fn] on any well-formed list, empty or not: it returns, the
    list is well-formed with one more node, that node is the tail and
    holds 50, and the traversal delivers the old values followed by
    50. *)
Theorem some_fn_appends h l ns :
  list_inv h l ns →
  ∃ h' l',
    some_fn h l = Done (h', l')
    ∧ list_inv h' l' (ns ++ [(new_node h, 50)])
    ∧ tail l' = Some (new_node h)
    ∧ ∀ fuel, (S (length ns) ≤ fuel)%nat →
        walk_and_print_list fuel h' (head l') print_node
        = Some (Done (ns.*2 ++ [50])).
Proof.
  intros Hinv. unfold some_fn.
  destruct (push_node_inv _ _ _ 50 Hinv) as (h' & l' & Hpush & Hinv' & Htl & _).
  exists h', l'. repeat (split; [done|]).
  intros fuel Hfuel.
  replace (ns.*2 ++ [50]) with (ns ++ [(new_node h, 50)]).*2
    by (by rewrite fmap_app).
  apply (walk_list _ _ _ _ Hinv'); [by destruct ns|].
  rewrite length_app. simpl. lia.
Qed.

Lemma some_fn_appends_witness :
  ∃ h' l',
    some_fn one_heap one_list = Done (h', l')
    ∧ list_inv h' l' ([(1%positive, 5)] ++ [(new_node one_heap, 50)])
    ∧ tail l' = Some (new_node one_heap)
    ∧ ∀ fuel, (S (length [(1%positive, 5)]) ≤ fuel)%nat →
        walk_and_print_list fuel h' (head l') print_node
        = Some (Done ([(1%positive, 5)].*2 ++ [50])).
Proof. exact (some_fn_appends one_heap one_list [(1%positive, 5)] one_list_inv). Defined.

(** X13: what an append leaves alone.  Every node allocated before is
    still allocated afterwards with its value, and is unchanged altogether
    unless it is the old tail; a second well-formed list in the same heap
    that does not contain the old tail of the first is still well-formed
    with the same nodes. *)
Theorem push_node_frame h l ns v h' l' :
  list_inv h l ns →
  push_node h l v = Done (h', l') →
  (∀ a n, h !! a = Some n →
     ∃ n', h' !! a = Some n' ∧ value n' = value n
           ∧ (tail l ≠ Some a → n' = n))
  ∧ (∀ l2 ns2,
       list_inv h l2 ns2 →
       (∀ t, tail l = Some t → t ∉ ns2.*1) →
       list_inv h' l2 ns2).
Proof.
  intros Hinv Hpush.
  pose proof (new_node_fresh h) as Hfresh.
  destruct (head l) as [hd|] eqn:Hhd.
  - destruct (list_inv_tail _ _ _ _ Hinv Hhd) as (t & tv & Htl & Ht).
    rewrite (push_node_tail _ _ _ _ _ _ Hhd Htl Ht) in Hpush.
    injection Hpush as <- <-. simpl. split.
    + intros a n Ha.
      assert (a ≠ new_node h) as Hne by (intros ->; congruence).
      destruct (decide (a = t)) as [->|Hat].
      * rewrite Ha in Ht. injection Ht as ->.
        eexists. rewrite lookup_insert_eq. split; [done|]. split; [done|].
        intros Hnot. congruence.
      * exists n. by rewrite !lookup_insert_ne.
    + intros l2 ns2 [Hch2 Htl2] Hnot. constructor; [|done].
      apply chain_insert_fresh; [|by apply Hnot].
      apply chain_insert_fresh; [done|by eapply new_node_not_in_chain].
  - rewrite (push_node_empty _ _ _ Hhd) in Hpush. injection Hpush as <- <-.
    split.
    + intros a n Ha.
      assert (a ≠ new_node h) as Hne by (intros ->; congruence).
      exists n. by rewrite lookup_insert_ne.
    + intros l2 ns2 [Hch2 Htl2] _. constructor; [|done].
      apply chain_insert_fresh; [done|by eapply new_node_not_in_chain].
Qed.

Lemma push_node_frame_witness :
  ∃ h' l',
    push_node one_heap one_list 10 = Done (h', l')
    ∧ (∀ a n, one_heap !! a = Some n →
         ∃ n', h' !! a = Some n' ∧ value n' = value n
               ∧ (tail one_list ≠ Some a → n' = n))
    ∧ (∀ l2 ns2,
         list_inv one_heap l2 ns2 →
         (∀ t, tail one_list = Some t → t ∉ ns2.*1) →
         list_inv h' l2 ns2).
Proof.
  eexists _, _. split; [reflexivity|].
  eapply (push_node_frame one_heap one_list [(1%positive, 5)] 10);
    [exact one_list_inv|reflexivity].
Defined.

(** Linking a node behind a node of a chain cuts the chain there. *)
Lemma chain_relink h node v : ∀ ns1 p t tv rest,
  chain h p (ns1 ++ (t, tv) :: rest) →
  t ∉ ns1.*1 →
  node ∉ ns1.*1 →
  node ≠ t →
  h !! node = Some {| next := None; value := v |} →
  chain (<[t := {| next := Some node; value := tv |}]> h) p
        (ns1 ++ [(t, tv); (node, v)]).
Proof.
  induction ns1 as [|[l0 v0] ns1 IH]; intros p t tv rest Hch Ht Hnode Hne Hn;
    simpl in *.
  - destruct Hch as [-> (nx & Hl & _)]. split; [done|].
    exists (Some node). split; [by rewrite lookup_insert_eq|].
    split; [done|]. exists None. by rewrite lookup_insert_ne.
  - destruct Hch as [-> (nx & Hl & Hch)]. split; [done|].
    apply not_elem_of_cons in Ht as [Ht0 Ht].
    apply not_elem_of_cons in Hnode as [_ Hnode].
    exists nx. split; [by rewrite lookup_insert_ne|by eapply IH].
Qed.

(** X14: [push_node] links the new node behind the node [tail] points
    to, without looking at that node's next link.  If [tail] is a node in
    the middle of the chain from head (a stale tail), the append returns,
    the list is well-formed again and ends in the new node, and the nodes
    that followed the stale tail are no longer part of it. *)
Theorem push_node_relinks h l ns1 t tv rest v :
  chain h (head l) (ns1 ++ (t, tv) :: rest) →
  tail l = Some t →
  ∃ h' l',
    push_node h l v = Done (h', l')
    ∧ list_inv h' l' (ns1 ++ [(t, tv); (new_node h, v)])
    ∧ ∀ fuel, (length ns1 + 2 ≤ fuel)%nat →
        walk_and_print_list fuel h' (head l') print_node
        = Some (Done (ns1.*2 ++ [tv; v])).
Proof.
  intros Hch Htl.
  pose proof (chain_nodup _ _ _ Hch) as Hnd.
  pose proof (new_node_not_in_chain _ _ _ Hch) as Hnew.
  pose proof Hnew as Hnewfull.
  rewrite fmap_app in Hnd, Hnew. simpl in Hnd, Hnew.
  apply NoDup_app in Hnd as (_ & Hdisj & _).
  apply not_elem_of_app in Hnew as [Hnew1 Hnew2].
  apply not_elem_of_cons in Hnew2 as [Hnewt _].
  assert (t ∉ ns1.*1) as Ht1.
  { intros Hin. apply (Hdisj _ Hin). by left. }
  assert (∃ hd, head l = Some hd) as [hd Hhd].
  { destruct ns1 as [|[l0 v0] ns1]; simpl in Hch; destruct Hch as [-> _]; eauto. }
  destruct (chain_app_inv _ _ _ _ Hch) as (q & Hq).
  destruct Hq as [_ (nx & Ht & _)].
  rewrite (push_node_tail _ _ _ _ _ _ Hhd Htl Ht). simpl.
  assert (list_inv
            (<[t := {| next := Some (new_node h); value := tv |}]>
               (<[new_node h := {| next := None; value := v |}]> h))
            {| head := Some hd; tail := Some (new_node h) |}
            (ns1 ++ [(t, tv); (new_node h, v)])) as Hinv.
  { constructor; simpl.
    - rewrite <- Hhd. apply (chain_relink _ _ _ _ _ _ _ rest); try done.
      + by apply chain_insert_fresh.
      + by rewrite lookup_insert_eq.
    - rewrite fmap_app. simpl.
      by rewrite (last_app_cons _ [new_node h] t). }
  eexists _, _. split; [done|]. split; [done|].
  intros fuel Hfuel.
  replace (ns1.*2 ++ [tv; v]) with (ns1 ++ [(t, tv); (new_node h, v)]).*2
    by (by rewrite fmap_app).
  apply (walk_list _ _ _ _ Hinv); [by destruct ns1|].
  rewrite length_app. simpl. lia.
Qed.

Lemma push_node_relinks_witness :
  chain two_heap (head stale_list) ([] ++ (1%positive, 5) :: [(2%positive, 10)])
  ∧ tail stale_list = Some 1%positive
  ∧ ∃ h' l',
      push_node two_heap stale_list 20 = Done (h', l')
      ∧ list_inv h' l' ([] ++ [(1%positive, 5); (new_node two_heap, 20)])
      ∧ ∀ fuel, (length ([] : list (loc * Z)) + 2 ≤ fuel)%nat →
          walk_and_print_list fuel h' (head l') print_node
          = Some (Done (([] : list (loc * Z)).*2 ++ [5; 20])).
Proof.
  assert (chain two_heap (head stale_list)
            ([] ++ (1%positive, 5) :: [(2%positive, 10)])) as H0.
  { split; [reflexivity|]. exists (Some 2%positive). split; [reflexivity|].
    split; [reflexivity|]. exists None. split; reflexivity. }
  split; [exact H0|]. split; [reflexivity|].
  exact (push_node_relinks two_heap stale_list [] 1%positive 5
           [(2%positive, 10)] 20 H0 eq_refl).
Defined.

(** X15: the traversal from a present node returns exactly when the next
    links from that node form a chain that ends and the visitor succeeds
    on every node of it; what it returns are the visitor's outputs on
    those nodes, in chain order. *)
Theorem walk_returns_iff {A : Type} h p (nfn : NodeFn A) outs :
  (∃ fuel, walk_and_print_list fuel h (Some p) nfn = Some (Done outs))
  ↔ (∃ ns, chain h (Some p) ns
           ∧ Forall2 (λ n o, nfn h (Some n.1) = Done o) ns outs).
Proof.
  split.
  - intros [fuel Hw]. by eapply walk_done_chain.
  - intros (ns & Hch & Hall). exists (length ns).
    by apply (walk_chain _ _ ns).
Qed.

Lemma walk_returns_iff_witness :
  ∃ fuel,
    walk_and_print_list fuel one_heap (Some 1%positive) print_node
    = Some (Done [5]).
Proof.
  apply (proj2 (walk_returns_iff one_heap 1%positive print_node [5])).
  exists [(1%positive, 5)]. split.
  - split; [reflexivity|]. exists None. split; reflexivity.
  - repeat constructor.
Defined.

(** X16: the traversal with [print_node] has no cycle detection.  From
    a start node that reaches a node lying on a cycle of next links, no
    run of it returns a result. *)
Theorem walk_cycle_diverges h p q (i k : nat) :
  hop h i (Some p) = Some q →
  hop h (S k) (Some q) = Some q →
  ∀ fuel r, walk_and_print_list fuel h (Some p) print_node ≠ Some (Done r).
Proof.
  intros Hi Hk.
  assert (∀ j : nat, is_Some (hop h j (Some p))) as Hlive.
  { intros j. destruct (hop h j (Some p)) as [a|] eqn:Hj; [eauto|].
    exfalso.
    assert (hop h (i + j * S k) (Some p) = Some q) as Hq.
    { by rewrite hop_add, Hi, (hop_cycle _ _ _ Hk). }
    replace (i + j * S k)%nat with (j + (i + j * k))%nat in Hq by lia.
    by rewrite hop_add, Hj, hop_null in Hq. }
  intros fuel r Hw.
  destruct (walk_done_chain _ _ _ _ _ Hw) as (ns & Hch & _).
  pose proof (hop_chain_end _ _ _ Hch) as Hend.
  destruct (Hlive (length ns)) as [a Ha]. congruence.
Qed.

Lemma walk_cycle_diverges_witness :
  hop loop_heap 0 (Some 1%positive) = Some 1%positive
  ∧ hop loop_heap 1 (Some 1%positive) = Some 1%positive
  ∧ ∀ fuel r,
      walk_and_print_list fuel loop_heap (Some 1%positive) print_node
      ≠ Some (Done r).
Proof.
  split; [reflexivity|]. split; [reflexivity|].
  exact (walk_cycle_diverges loop_heap 1%positive 1%positive 0 0
           eq_refl eq_refl).
Defined.

(** X17: the recursion is as deep as the chain is long.  On a chain that
    ends, with a visitor that succeeds on its nodes, the traversal
    returns with every depth bound of at least the number of nodes and
    with no smaller one. *)
Theorem walk_depth {A : Type} h p ns (nfn : NodeFn A) outs :
  chain h (Some p) ns →
  Forall2 (λ n o, nfn h (Some n.1) = Done o) ns outs →
  ∀ fuel,
    (length ns ≤ fuel)%nat
    ↔ walk_and_print_list fuel h (Some p) nfn = Some (Done outs).
Proof.
  intros Hch Hall fuel. split; [by apply walk_chain|].
  revert p ns outs Hch Hall.
  induction fuel as [|fuel IH]; intros p ns outs Hch Hall Hw; [done|].
  destruct ns as [|[l v] ns]; [simpl; lia|].
  destruct Hch as [[= ->] (nx & Hl & Hch)].
  apply Forall2_cons_inv_l in Hall as (o & outs' & Ho & Hall & ->).
  simpl in Ho, Hw. rewrite Ho, Hl in Hw. simpl in Hw.
  destruct ns as [|[l2 v2] ns]; [simpl; lia|].
  pose proof (chain_head _ _ _ _ _ Hch) as ->.
  destruct (walk_and_print_list fuel h (Some l2) nfn) as [[rest|]|] eqn:Hrest;
    [|done|done].
  injection Hw as ->.
  specialize (IH _ _ _ Hch Hall Hrest). simpl in *. lia.
Qed.

Lemma walk_depth_witness :
  chain one_heap (Some 1%positive) [(1%positive, 5)]
  ∧ Forall2 (λ n o, print_node one_heap (Some n.1) = Done o)
            [(1%positive, 5)] [5]
  ∧ ∀ fuel,
      (length [(1%positive, 5)] ≤ fuel)%nat
      ↔ walk_and_print_list fuel one_heap (Some 1%positive) print_node
        = Some (Done [5]).
Proof.
  assert (chain one_heap (Some 1%positive) [(1%positive, 5)]) as H0.
  { split; [reflexivity|]. exists None. split; reflexivity. }
  assert (Forall2 (λ n o, print_node one_heap (Some n.1) = Done o)
                  [(1%positive, 5)] [5]) as H1.
  { repeat constructor. }
  split; [exact H0|]. split; [exact H1|].
  exact (walk_depth one_heap 1%positive [(1%positive, 5)] print_node [5] H0 H1).
Defined.

(** X18: both [main] programs, from whatever heap they start in: no
    append faults, and the walk, given depth for the nodes, prints
    5, 10, 20, 40, 50 for [linked_list.c] (four appends and [some_fn])
    and 5, 10, 20, 40 for the earlier copy. *)
Theorem mains_print :
  (∀ h0 fuel, (5 ≤ fuel)%nat →
     main fuel h0 = Some (Done [5; 10; 20; 40; 50]))
  ∧ (∀ h0 fuel, (4 ≤ fuel)%nat →
       Part000.main fuel h0 = Some (Done [5; 10; 20; 40])).
Proof.
  assert (∀ h0, list_inv h0 empty_list []) as Hempty by (by constructor).
  split; intros h0 fuel Hfuel.
  - destruct (push_node_inv _ _ _ 5 (Hempty h0)) as (h1 & l1 & Hp1 & I1 & _).
    destruct (push_node_inv _ _ _ 10 I1) as (h2 & l2 & Hp2 & I2 & _).
    destruct (push_node_inv _ _ _ 20 I2) as (h3 & l3 & Hp3 & I3 & _).
    destruct (push_node_inv _ _ _ 40 I3) as (h4 & l4 & Hp4 & I4 & _).
    destruct (push_node_inv _ _ _ 50 I4) as (h5 & l5 & Hp5 & I5 & _).
    unfold main, some_fn. rewrite Hp1. simpl. rewrite Hp2. simpl.
    rewrite Hp3. simpl. rewrite Hp4. simpl. rewrite Hp5.
    by apply (walk_list _ _ _ _ I5).
  - destruct (push_node_inv _ _ _ 5 (Hempty h0)) as (h1 & l1 & Hp1 & I1 & _).
    destruct (push_node_inv _ _ _ 10 I1) as (h2 & l2 & Hp2 & I2 & _).
    destruct (push_node_inv _ _ _ 20 I2) as (h3 & l3 & Hp3 & I3 & _).
    destruct (push_node_inv _ _ _ 40 I3) as (h4 & l4 & Hp4 & I4 & _).
    unfold Part000.main. rewrite Hp1. simpl. rewrite Hp2. simpl.
    rewrite Hp3. simpl. rewrite Hp4.
    by apply (walk_list _ _ _ _ I4).
Qed.

Lemma mains_print_witness :
  (5 ≤ 5)%nat
  ∧ main 5 one_heap = Some (Done [5; 10; 20; 40; 50])
  ∧ (4 ≤ 4)%nat
  ∧ Part000.main 4 one_heap = Some (Done [5; 10; 20; 40]).
Proof.
  assert (5 ≤ 5)%nat as H0 by lia.
  assert (4 ≤ 4)%nat as H1 by lia.
  split; [exact H0|]. split; [exact (proj1 mains_print one_heap 5%nat H0)|].
  split; [exact H1|]. exact (proj2 mains_print one_heap 4%nat H1).
Defined.

End LinkedListMore.
